(** * Cevitxe: the per-peer synchronisation core

    A shallow embedding of [DocumentSync] (one local document kept in sync
    with one remote replica, driven by two vector clocks) and of the
    connection bookkeeping of [StoreManager], with the properties the
    specification states about them.

    Vector clocks are Immutable.js maps from actor ids to sequence numbers;
    they are embedded as [gmap string nat].  JavaScript exceptions do not
    roll back mutations, so effectful code lives in a state monad whose
    failures carry the state reached when the exception was thrown. *)

From stdpp Require Import gmap strings list fin_maps.

Open Scope string_scope.
Open Scope list_scope.
Open Scope nat_scope.

(** ** Clock algebra *)

(** [type Clock = Map<string, number>] *)
Abbreviation Clock := (gmap string nat).

Module Clocks.

(** [clock.get(k, 0)]: the sequence number of actor [k], zero when the
    actor is absent. *)
Definition get0 (c : Clock) (k : string) : nat := default 0 (c !! k).

(** Modelled from the spec: [./lib/lessOrEqual] is imported by
    [DocumentSync] but is not among the sources.  "true iff for every
    actor k present in a, a[k] <= b[k] (absent keys treated as zero on
    both sides)". *)
Definition lessOrEqual (a b : Clock) : bool :=
  bool_decide (map_Forall (λ k n, n ≤ get0 b k) a).

(** Immutable's [oldClock.mergeWith(merger, clock)]: keys of either map
    are kept, and a key of both gets [merger old new]. *)
Definition mergeWith (merger : nat → nat → nat) (oldClock clock : Clock) : Clock :=
  union_with (λ x y, Some (merger x y)) oldClock clock.

(** [const largestWins = (x, y) => Math.max(x, y)] *)
Definition largestWins (x y : nat) : nat := x `max` y.

(** Pointwise order and pointwise equality of clocks, absent actors read
    as zero. *)
Definition pointwise_le (a b : Clock) : Prop := ∀ k, get0 a k ≤ get0 b k.
Definition pointwise_eq (a b : Clock) : Prop := ∀ k, get0 a k = get0 b k.

End Clocks.

Import Clocks.

(** ** JavaScript effects: mutable state and exceptions *)

(** [throw new TypeError(msg)] and [throw new RangeError(msg)]. *)
Inductive Error : Type :=
  | TypeError (msg : string)
  | RangeError (msg : string).

Inductive Res (A : Type) : Type :=
  | Ok (a : A)
  | Throw (e : Error).
Arguments Ok {A} a.
Arguments Throw {A} e.

(** A computation over a mutable state [S]: it ends normally with a value or
    by an exception, and in both cases leaves the state it has reached. *)
Definition M (S A : Type) : Type := S → Res A * S.

Definition ret {S A} (a : A) : M S A := λ s, (Ok a, s).

Definition throw {S A} (e : Error) : M S A := λ s, (Throw e, s).

Definition bind {S A B} (m : M S A) (k : A → M S B) : M S B :=
  λ s, match m s with
       | (Ok a, s') => k a s'
       | (Throw e, s') => (Throw e, s')
       end.

Definition gets {S A} (f : S → A) : M S A := λ s, (Ok (f s), s).

Definition modify {S} (f : S → S) : M S unit := λ s, (Ok tt, f s).

Notation "'let*' x ':=' c1 'in' c2" := (bind c1 (λ x, c2))
  (at level 10, x name, c1 at level 100, c2 at level 200, only parsing).
Notation "c1 ;; c2" := (bind c1 (λ _, c2))
  (at level 100, c2 at level 200, only parsing, right associativity).

(** [collection.forEach(f)] *)
Fixpoint forEach {S A} (l : list A) (f : A → M S unit) : M S unit :=
  match l with
  | [] => ret tt
  | x :: l' => f x ;; forEach l' f
  end.

(** [m] moves every state to an [R]-related one, whether it returns or
    throws. *)
Definition preserves {S A} (R : relation S) (m : M S A) : Prop :=
  ∀ s, R s (m s).2.

(** States that agree on the observation [f]. *)
Definition same {S B} (f : S → B) : relation S := λ s s', f s = f s'.

(** ** The CRDT library *)

(** The operations of the Automerge dependency that [DocumentSync] calls on a
    document of type [Doc]; the library is a parameter of the development.
    - [docClock doc] is
      [Frontend.getBackendState(doc).getIn(['opSet', 'clock'])], which is
      [undefined] for an object that carries no clock;
    - [getMissingChanges doc clock] is
      [Backend.getMissingChanges(Frontend.getBackendState(doc), clock)];
    - [applyChanges doc changes] is the document that
      [WatchableDoc.applyChanges] computes from [Backend.applyChanges] and
      [Frontend.applyPatch]. *)
Class Automerge (Doc Change : Type) := {
  docClock : Doc → option Clock;
  getMissingChanges : Doc → Clock → list Change;
  applyChanges : Doc → list Change → Doc
}.

(** ** DocumentSync *)

Module DocumentSync.

Section WithAutomerge.

Context {Doc Change : Type} `{!Automerge Doc Change}.

(** [interface Message { clock: Clock; changes?: Change[] }].  A message
    decoded from the wire may lack either field, and [receive] tests both. *)
Record Message : Type := {
  msg_clock : option Clock;
  msg_changes : option (list Change)
}.

(** [type Clocks = { ours: Clock; theirs: Clock }].  Each slot is read as
    [this.clock[which] || ...], so a slot may hold [undefined]. *)
Record Clocks : Type := {
  ours : option Clock;
  theirs : option Clock
}.

Inductive Which : Type := Ours | Theirs.

(** Modelled from the spec: the observable wrapper ([Automerge.WatchableDoc])
    is a dependency; "the core depends only on get(), applyChanges(changes),
    registerHandler(fn), unregisterHandler(fn)" and "the change-observation
    hook fires after every applyChanges completes".  Handlers are function
    objects kept in a set; JavaScript compares function objects by identity
    only, so a function object is represented by the number it was allocated
    under. *)
Record WatchableDoc : Type := {
  wd_doc : Doc;
  wd_handlers : gset nat
}.

(** An instance of [DocumentSync] together with what it shares with its
    environment: the [WatchableDoc] it was constructed over, the messages
    handed to the [send] callback so far, and the allocator of function
    objects. *)
Record DocumentSync : Type := {
  watchableDoc : WatchableDoc;
  clock : Clocks;
  sent : list Message;
  next_fn : nat
}.

Definition set_watchableDoc (f : WatchableDoc → WatchableDoc) (this : DocumentSync) : DocumentSync :=
  {| watchableDoc := f (watchableDoc this); clock := clock this;
     sent := sent this; next_fn := next_fn this |}.

Definition set_clock (f : Clocks → Clocks) (this : DocumentSync) : DocumentSync :=
  {| watchableDoc := watchableDoc this; clock := f (clock this);
     sent := sent this; next_fn := next_fn this |}.

Definition set_sent (f : list Message → list Message) (this : DocumentSync) : DocumentSync :=
  {| watchableDoc := watchableDoc this; clock := clock this;
     sent := f (sent this); next_fn := next_fn this |}.

Definition set_next_fn (f : nat → nat) (this : DocumentSync) : DocumentSync :=
  {| watchableDoc := watchableDoc this; clock := clock this;
     sent := sent this; next_fn := f (next_fn this) |}.

(** [this.clock[which]] and [this.clock[which] = c] *)
Definition slot (which : Which) (c : Clocks) : option Clock :=
  match which with Ours => ours c | Theirs => theirs c end.

Definition set_slot (which : Which) (v : option Clock) (c : Clocks) : Clocks :=
  match which with
  | Ours => {| ours := v; theirs := theirs c |}
  | Theirs => {| ours := ours c; theirs := v |}
  end.

Definition ERR_OLDCLOCK : string := "Cannot pass an old state object to a connection".
Definition ERR_NOCLOCK : string :=
  "This object cannot be used for network sync. " +:+
  "Are you trying to sync a snapshot from the history?".

(** The message of the TypeError the runtime raises when a method is called
    on [undefined] ([clock.toJS()], or the key scan of [lessOrEqual]). *)
Definition ERR_UNDEFINED : string := "Cannot read properties of undefined".

(** The two failures of [validateDoc], under the names the specification
    gives them. *)
Definition NoClockError : Error := TypeError ERR_NOCLOCK.
Definition OldClockError : Error := RangeError ERR_OLDCLOCK.

Local Abbreviation Sync := (M DocumentSync).

(** [this.send(msg)]: the callback of the transport; the message is recorded. *)
Definition send (msg : Message) : Sync unit :=
  modify (set_sent (λ out, out ++ [msg])).

(** [this.docChanged.bind(this)]: every call allocates a new function object. *)
Definition bind_docChanged : Sync nat :=
  let* h := gets next_fn in
  modify (set_next_fn S) ;;
  ret h.

(** [watchableDoc.get()] *)
Definition wd_get : Sync Doc := gets (λ this, wd_doc (watchableDoc this)).

(** [watchableDoc.registerHandler(h)] *)
Definition registerHandler (h : nat) : Sync unit :=
  modify (set_watchableDoc (λ w,
    {| wd_doc := wd_doc w; wd_handlers := wd_handlers w ∪ {[ h ]} |})).

(** [watchableDoc.unregisterHandler(h)] *)
Definition unregisterHandler (h : nat) : Sync unit :=
  modify (set_watchableDoc (λ w,
    {| wd_doc := wd_doc w; wd_handlers := wd_handlers w ∖ {[ h ]} |})).

(** [constructor(watchableDoc, send)]:
    [this.clock = { ours: Map(), theirs: Map() }] *)
Definition constructor (w : WatchableDoc) (next : nat) : DocumentSync :=
  {| watchableDoc := w;
     clock := {| ours := Some ∅; theirs := Some ∅ |};
     sent := [];
     next_fn := next |}.

(** [getState()]: [Frontend.getBackendState(this.watchableDoc.get())].  The
    backend state of a document is read off the document by the operations of
    the library, so the document stands for it. *)
Definition getState : Sync Doc := wd_get.

(** [getClockFromDoc()]: [this.getState().getIn(['opSet', 'clock'])] *)
Definition getClockFromDoc : Sync (option Clock) :=
  let* state := getState in ret (docClock state).

(** [getClock(which)]: [this.clock[which] || initialClockValue], where the
    initial value is an empty clock for ours and [undefined] for theirs.  An
    Immutable map is an object, hence truthy even when empty. *)
Definition getClock (which : Which) : Sync (option Clock) :=
  let initialClockValue :=
    match which with Ours => Some (∅ : Clock) | Theirs => None end in
  let* c := gets (λ this, slot which (clock this)) in
  ret (match c with Some c => Some c | None => initialClockValue end).

(** A parameter with the default value [this.getClockFromDoc()]: the default
    is taken when the argument is [undefined]. *)
Definition orClockFromDoc (arg : option Clock) : Sync (option Clock) :=
  match arg with
  | Some c => ret (Some c)
  | None => getClockFromDoc
  end.

(** [updateClock(which, clock = this.getClockFromDoc())].  Immutable reads an
    [undefined] collection as an empty one, so merging it changes nothing. *)
Definition updateClock (which : Which) (arg : option Clock) : Sync unit :=
  let* clock' := orClockFromDoc arg in
  let* oldSlot := gets (λ this, slot which (clock this)) in
  let oldClock := default ∅ oldSlot in
  let newClock := mergeWith largestWins oldClock (default ∅ clock') in
  modify (set_clock (set_slot which (Some newClock))).

(** [validateDoc(clock)] *)
Definition validateDoc (clock' : option Clock) : Sync unit :=
  let* ourClock := getClock Ours in
  match clock' with
  | None => throw NoClockError
  | Some c =>
      if negb (lessOrEqual (default ∅ ourClock) c) then throw OldClockError
      else ret tt
  end.

(** [requestChanges(clock = this.getClockFromDoc())] *)
Definition requestChanges (arg : option Clock) : Sync unit :=
  let* clock' := orClockFromDoc arg in
  match clock' with
  | None => throw (TypeError ERR_UNDEFINED)
  | Some c => send {| msg_clock := Some c; msg_changes := None |}
  end.

(** [maybeRequestChanges(clock = this.getClockFromDoc())] *)
Definition maybeRequestChanges (arg : option Clock) : Sync unit :=
  let* clock' := orClockFromDoc arg in
  let* ourClock := getClock Ours in
  match clock' with
  | None => throw (TypeError ERR_UNDEFINED)
  | Some c =>
      if negb (lessOrEqual c (default ∅ ourClock)) then requestChanges (Some c)
      else ret tt
  end.

(** [sendChanges(changes)] *)
Definition sendChanges (changes : list Change) : Sync unit :=
  let* clock' := getClockFromDoc in
  match clock' with
  | None => throw (TypeError ERR_UNDEFINED)
  | Some c =>
      send {| msg_clock := Some c; msg_changes := Some changes |} ;;
      updateClock Ours None
  end.

(** [maybeSendChanges()] *)
Definition maybeSendChanges : Sync unit :=
  let* theirClock := getClock Theirs in
  match theirClock with
  | None => ret tt
  | Some theirClock =>
      let* ourState := getState in
      let changes := getMissingChanges ourState theirClock in
      if 0 <? length changes then sendChanges changes else ret tt
  end.

(** [docChanged()] *)
Definition docChanged : Sync unit :=
  let* clock' := getClockFromDoc in
  validateDoc clock' ;;
  maybeSendChanges ;;
  maybeRequestChanges clock' ;;
  updateClock Ours clock'.

(** [watchableDoc.set(doc)]: store the document, then call every handler.
    Every function object in this model was made by
    [this.docChanged.bind(this)], so calling it runs [docChanged]. *)
Definition wd_set (doc : Doc) : Sync unit :=
  modify (set_watchableDoc (λ w,
    {| wd_doc := doc; wd_handlers := wd_handlers w |})) ;;
  let* handlers := gets (λ this, wd_handlers (watchableDoc this)) in
  forEach (elements handlers) (λ _, docChanged).

(** [watchableDoc.applyChanges(changes)] *)
Definition wd_applyChanges (changes : list Change) : Sync Doc :=
  let* doc := wd_get in
  let newDoc := applyChanges doc changes in
  wd_set newDoc ;;
  ret newDoc.

(** [open()] *)
Definition open : Sync unit :=
  let* clock' := getClockFromDoc in
  validateDoc clock' ;;
  requestChanges clock' ;;
  updateClock Ours clock' ;;
  let* h := bind_docChanged in
  registerHandler h.

(** [close()] *)
Definition close : Sync unit :=
  let* h := bind_docChanged in
  unregisterHandler h.

(** [receive({ clock, changes })] *)
Definition receive (msg : Message) : Sync Doc :=
  match msg_clock msg with
  | Some c => updateClock Theirs (Some c)
  | None => ret tt
  end ;;
  match msg_changes msg with
  | Some changes => let* _ := wd_applyChanges changes in ret tt
  | None => maybeSendChanges
  end ;;
  wd_get.

(** What can happen to a [DocumentSync]: calls of its public API by the
    connection, the hook calling [docChanged], and the repository storing a
    new document in the shared [WatchableDoc]. *)
Inductive Op : Type :=
  | OpOpen
  | OpClose
  | OpReceive (msg : Message)
  | OpDocChanged
  | OpSet (doc : Doc).

Definition step (o : Op) : Sync unit :=
  match o with
  | OpOpen => open
  | OpClose => close
  | OpReceive msg => let* _ := receive msg in ret tt
  | OpDocChanged => docChanged
  | OpSet doc => wd_set doc
  end.

(** A sequence of operations; it stops at the first exception. *)
Definition run (ops : list Op) : Sync unit := forEach ops step.

(** The value [getClock('ours')] returns in a given state. *)
Definition ourClock (this : DocumentSync) : Clock := default ∅ (ours (clock this)).

(** Our clock in [this'] is pointwise at least our clock in [this]. *)
Definition oursGrows (this this' : DocumentSync) : Prop :=
  pointwise_le (ourClock this) (ourClock this').

(** What [docChanged] and the functions it calls never write: their clock,
    the shared document with its handlers, and the allocator. *)
Definition untouched (this : DocumentSync) : option Clock * WatchableDoc * nat :=
  (theirs (clock this), watchableDoc this, next_fn this).

(** Function objects are allocated in increasing order, so a handler that is
    subscribed was allocated before the next one to come. *)
Definition allocated (this : DocumentSync) : Prop :=
  ∀ h, h ∈ wd_handlers (watchableDoc this) → h < next_fn this.

(** The clock that a missing [theirs] stands for when clocks are merged:
    [this.clock.theirs || Map()]. *)
Definition theirClock (this : DocumentSync) : Clock := default ∅ (theirs (clock this)).

(** Their clock in [this'] is pointwise at least their clock in [this], and
    it is known in [this'] when it is known in [this]. *)
Definition theirsGrows (this this' : DocumentSync) : Prop :=
  pointwise_le (theirClock this) (theirClock this')
  ∧ (is_Some (theirs (clock this)) → is_Some (theirs (clock this'))).

(** A message has the shape [requestChanges] and [sendChanges] give it when
    it has a clock and, if it has a changes array, the array is not empty. *)
Definition shaped (msg : Message) : bool :=
  match msg_clock msg, msg_changes msg with
  | Some _, Some [] => false
  | Some _, _ => true
  | None, _ => false
  end.

(** The messages sent up to [this'] are those sent up to [this] followed by
    shaped messages. *)
Definition sentExtends (this this' : DocumentSync) : Prop :=
  ∃ msgs, sent this' = sent this ++ msgs ∧ Forall (λ msg, shaped msg = true) msgs.

(** The handler set and the allocator of function objects. *)
Definition subscriptions (this : DocumentSync) : gset nat * nat :=
  (wd_handlers (watchableDoc this), next_fn this).

(** From a state whose handlers were all allocated, [this'] is such a state
    again and has kept every handler. *)
Definition handlersKept (this this' : DocumentSync) : Prop :=
  allocated this →
  allocated this' ∧ wd_handlers (watchableDoc this) ⊆ wd_handlers (watchableDoc this').

(** An operation other than [receive]. *)
Definition notReceive (o : Op) : bool :=
  match o with OpReceive _ => false | _ => true end.

(** The state a successful [open] leaves when the document has clock [c]. *)
Definition opened (c : Clock) (this : DocumentSync) : DocumentSync :=
  {| watchableDoc :=
       {| wd_doc := wd_doc (watchableDoc this);
          wd_handlers := wd_handlers (watchableDoc this) ∪ {[ next_fn this ]} |};
     clock := {| ours := Some (mergeWith largestWins (ourClock this) c);
                 theirs := theirs (clock this) |};
     sent := sent this ++ [{| msg_clock := Some c; msg_changes := None |}];
     next_fn := S (next_fn this) |}.

(** The changes [maybeSendChanges] finds missing: none when their clock is
    unknown. *)
Definition missing (this : DocumentSync) : list Change :=
  match theirs (clock this) with
  | Some theirClock => getMissingChanges (wd_doc (watchableDoc this)) theirClock
  | None => []
  end.

(** The messages a successful [docChanged] sends when the document has
    clock [c]. *)
Definition announced (c : Clock) (this : DocumentSync) : list Message :=
  if 0 <? length (missing this)
  then [{| msg_clock := Some c; msg_changes := Some (missing this) |}]
  else if lessOrEqual c (ourClock this) then []
       else [{| msg_clock := Some c; msg_changes := None |}].

End WithAutomerge.

Arguments Message : clear implicits.
Arguments Op : clear implicits.
Arguments DocumentSync : clear implicits.
Arguments WatchableDoc : clear implicits.

End DocumentSync.

(** ** A small CRDT to run the code on *)

(** A grow-only log of changes, each tagged with its actor and sequence
    number.  It instantiates the library interface so that [DocumentSync] can
    be evaluated on concrete documents; no general theorem depends on it. *)
Module LogDoc.

Definition Change : Type := string * nat.

(** [replica] is false for a plain object that carries no clock. *)
Record Doc : Type := {
  replica : bool;
  log : list Change
}.

Definition clockOf (l : list Change) : Clock :=
  foldl (λ c ch, mergeWith largestWins c {[ fst ch := snd ch ]}) ∅ l.

Definition known (c : Clock) (ch : Change) : bool := snd ch <=? get0 c (fst ch).

#[export] Instance automerge : Automerge Doc Change := {|
  docClock d := if replica d then Some (clockOf (log d)) else None;
  getMissingChanges d c := List.filter (λ ch, negb (known c ch)) (log d);
  applyChanges d chs :=
    {| replica := replica d;
       log := log d ++ List.filter (λ ch, negb (known (clockOf (log d)) ch)) chs |}
|}.

Definition empty : Doc := {| replica := true; log := [] |}.

Definition snapshot : Doc := {| replica := false; log := [] |}.

(** A replica with one change of alice, and the same with one more. *)
Definition one : Doc := {| replica := true; log := [("alice", 1)] |}.

Definition two : Doc := {| replica := true; log := [("alice", 1); ("alice", 2)] |}.

End LogDoc.

(** ** StoreManager *)

Module StoreManager.

Section WithStore.

(** The repository and the Redux store are opaque to the connection
    bookkeeping. *)
Context {Repo Store : Type}.

(** A peer handle of the signal client; [peer.id]. *)
Record Peer : Type := { peer_id : string }.

(** An object made by [new Connection(repo, socket, dispatch)].  [serial]
    is the identity of the object; the socket [peer.get(discoveryKey)] is
    named by the peer and the key it was obtained for. *)
Record Connection : Type := {
  serial : nat;
  socket : string * string
}.

(** The fields of a [StoreManager] that the connection bookkeeping touches,
    the listener table of the [EventEmitter] it extends, and a record of the
    effects it had on other objects:
    - [notified]: the listener calls made by [emit], oldest first;
    - [closed]: the connections whose [close()] was called, oldest first;
    - [peer_close_hooks]: the peers whose 'close' event now calls
      [removePeer];
    - [next_serial]: the allocator of [Connection] objects. *)
Record StoreManager : Type := {
  repo : option Repo;
  store : option Store;
  connections : gmap string Connection;
  listeners : list (string * nat);
  notified : list (nat * string);
  closed : list Connection;
  peer_close_hooks : list string;
  next_serial : nat
}.

(** [constructor(options)]: [this.connections = {}]; [repo] and [store] are
    not set before [makeStore]. *)
Definition constructor : StoreManager :=
  {| repo := None; store := None; connections := ∅; listeners := [];
     notified := []; closed := []; peer_close_hooks := []; next_serial := 0 |}.

(** [EventEmitter.on(event, listener)] *)
Definition on (event : string) (listener : nat) (this : StoreManager) : StoreManager :=
  {| repo := repo this; store := store this; connections := connections this;
     listeners := listeners this ++ [(event, listener)];
     notified := notified this; closed := closed this;
     peer_close_hooks := peer_close_hooks this; next_serial := next_serial this |}.

(** [EventEmitter.removeAllListeners()] *)
Definition removeAllListeners (this : StoreManager) : StoreManager :=
  {| repo := repo this; store := store this; connections := connections this;
     listeners := [];
     notified := notified this; closed := closed this;
     peer_close_hooks := peer_close_hooks this; next_serial := next_serial this |}.

(** The listeners registered for [event], in registration order. *)
Definition listenersOf (event : string) (this : StoreManager) : list nat :=
  (List.filter (λ el, bool_decide (fst el = event)) (listeners this)).*2.

(** [EventEmitter.emit(event, ...)]: call each listener registered for
    [event]. *)
Definition emit (event : string) (this : StoreManager) : StoreManager :=
  {| repo := repo this; store := store this; connections := connections this;
     listeners := listeners this;
     notified := notified this ++ map (λ l, (l, event)) (listenersOf event this);
     closed := closed this;
     peer_close_hooks := peer_close_hooks this; next_serial := next_serial this |}.

(** [get connectionCount()]: [Object.keys(this.connections).length] *)
Definition connectionCount (this : StoreManager) : nat := size (connections this).

(** [addPeer(peer, discoveryKey)] *)
Definition addPeer (peer : Peer) (discoveryKey : string) (this : StoreManager) : StoreManager :=
  match store this, repo this with
  | Some _, Some _ =>
      let socket := (peer_id peer, discoveryKey) in
      let connection := {| serial := next_serial this; socket := socket |} in
      let this :=
        {| repo := repo this; store := store this;
           connections := <[ peer_id peer := connection ]> (connections this);
           listeners := listeners this; notified := notified this;
           closed := closed this; peer_close_hooks := peer_close_hooks this;
           next_serial := S (next_serial this) |} in
      let this := emit "peer" this in
      {| repo := repo this; store := store this; connections := connections this;
         listeners := listeners this; notified := notified this;
         closed := closed this;
         peer_close_hooks := peer_close_hooks this ++ [peer_id peer];
         next_serial := next_serial this |}
  | _, _ => this
  end.

(** [removePeer(peerId)] *)
Definition removePeer (peerId : string) (this : StoreManager) : StoreManager :=
  {| repo := repo this; store := store this;
     connections := delete peerId (connections this);
     listeners := listeners this; notified := notified this;
     closed := match connections this !! peerId with
               | Some connection => closed this ++ [connection]
               | None => closed this
               end;
     peer_close_hooks := peer_close_hooks this; next_serial := next_serial this |}.

(** [close()].  [removePeer] returns nothing, so the promises awaited are
    already settled; the steps run in the order written. *)
Definition close (this : StoreManager) : StoreManager :=
  let this := removeAllListeners this in
  let peerIds := (map_to_list (connections this)).*1 in
  let this := foldl (λ this peerId, removePeer peerId this) this peerIds in
  let this :=
    {| repo := None; store := None; connections := ∅;
       listeners := listeners this; notified := notified this;
       closed := closed this; peer_close_hooks := peer_close_hooks this;
       next_serial := next_serial this |} in
  emit "close" this.

(** [makeStore(discoveryKey, isCreating)].  [repo'] and [store'] are the
    objects that [new Repo(...)] and [createReduxStore(...)] return; the
    signal client, which will call [addPeer], is outside the state. *)
Definition makeStore (discoveryKey : string) (isCreating : bool)
    (repo' : Repo) (store' : Store) (this : StoreManager) : StoreManager :=
  let this :=
    {| repo := Some repo'; store := Some store'; connections := connections this;
       listeners := listeners this; notified := notified this;
       closed := closed this; peer_close_hooks := peer_close_hooks this;
       next_serial := next_serial this |} in
  emit "ready" this.

(** [joinStore(discoveryKey)] and [createStore(discoveryKey)] *)
Definition joinStore (discoveryKey : string) := makeStore discoveryKey false.

Definition createStore (discoveryKey : string) := makeStore discoveryKey true.

(** [onChange(documentId, doc)] *)
Definition onChange (this : StoreManager) : StoreManager := emit "change" this.

(** What can happen to a [StoreManager]: the host calls [joinStore],
    [createStore], [on] or [close], the signal client reports a peer, a peer
    closes, the repository reports a change. *)
Inductive Op : Type :=
  | OpJoinStore (discoveryKey : string) (repo' : Repo) (store' : Store)
  | OpCreateStore (discoveryKey : string) (repo' : Repo) (store' : Store)
  | OpOn (event : string) (listener : nat)
  | OpAddPeer (peer : Peer) (discoveryKey : string)
  | OpPeerClosed (peerId : string)
  | OpChange
  | OpClose.

Definition step (this : StoreManager) (o : Op) : StoreManager :=
  match o with
  | OpJoinStore discoveryKey repo' store' => joinStore discoveryKey repo' store' this
  | OpCreateStore discoveryKey repo' store' => createStore discoveryKey repo' store' this
  | OpOn event listener => on event listener this
  | OpAddPeer peer discoveryKey => addPeer peer discoveryKey this
  | OpPeerClosed peerId => removePeer peerId this
  | OpChange => onChange this
  | OpClose => close this
  end.

Definition run (ops : list Op) (this : StoreManager) : StoreManager :=
  foldl step this ops.

(** The operations that set the store and the repository. *)
Definition startsStore (o : Op) : bool :=
  match o with
  | OpJoinStore _ _ _ | OpCreateStore _ _ _ => true
  | _ => false
  end.

(** The bookkeeping of connections is consistent: a connection is recorded
    under the id of the peer of its socket, the connection objects made so
    far have the serials below [next_serial], a recorded connection has not
    been closed, and no connection has been closed twice. *)
Definition consistent (this : StoreManager) : Prop :=
  (∀ peerId c, connections this !! peerId = Some c →
     fst (socket c) = peerId ∧ serial c < next_serial this ∧ (c ∉ closed this))
  ∧ (∀ c, c ∈ closed this → serial c < next_serial this)
  ∧ NoDup (closed this).

(** [c] is a connection object made earlier that is neither recorded nor
    closed. *)
Definition dropped (c : Connection) (this : StoreManager) : Prop :=
  serial c < next_serial this
  ∧ (c ∉ closed this)
  ∧ (∀ peerId, connections this !! peerId ≠ Some c).

End WithStore.

Arguments StoreManager : clear implicits.
Arguments Op : clear implicits.

End StoreManager.

(** ** Concrete states *)

(** States and messages on which the code is evaluated below. *)
Module Scenario.

Import DocumentSync.
Import (hints) LogDoc.

Abbreviation Sync := (DocumentSync LogDoc.Doc LogDoc.Change).

(** A [DocumentSync] as its constructor leaves it, over a document that has
    one change. *)
Definition fresh : Sync :=
  constructor {| wd_doc := LogDoc.one; wd_handlers := ∅ |} 0.

(** The same, in the state the specification starts from: our clock empty,
    their clock unknown. *)
Definition unknownPeer : Sync :=
  {| watchableDoc := {| wd_doc := LogDoc.one; wd_handlers := ∅ |};
     clock := {| ours := Some ∅; theirs := None |};
     sent := [];
     next_fn := 0 |}.



(** A pull request of a peer that holds nothing. *)
Definition pull : Message LogDoc.Change :=
  {| msg_clock := Some ∅; msg_changes := None |}.

(** A push of one change of bob. *)
Definition push : Message LogDoc.Change :=
  {| msg_clock := Some {[ "bob" := 1 ]}; msg_changes := Some [("bob", 1)] |}.

(** A connection to bob, and a [StoreManager] that holds it and has one
    listener for the close event. *)
Definition toBob : StoreManager.Connection :=
  {| StoreManager.serial := 0; StoreManager.socket := ("bob", "doc") |}.

Definition manager : StoreManager.StoreManager unit unit :=
  {| StoreManager.repo := Some tt;
     StoreManager.store := Some tt;
     StoreManager.connections := {[ "bob" := toBob ]};
     StoreManager.listeners := [("close", 7)];
     StoreManager.notified := [];
     StoreManager.closed := [];
     StoreManager.peer_close_hooks := ["bob"];
     StoreManager.next_serial := 1 |}.

End Scenario.

(** ** Theorems *)

Section ClockAlgebra.

Implicit Types a b c : Clock.

Lemma lessOrEqual_pointwise a b :
  lessOrEqual a b = true ↔ pointwise_le a b.
Proof.
  unfold lessOrEqual, pointwise_le, get0.
  rewrite bool_decide_eq_true. split.
  - intros Hall k. destruct (a !! k) as [n|] eqn:Hk; simpl; [|lia].
    exact (Hall k n Hk).
  - intros Hle k n Hk. specialize (Hle k). by rewrite Hk in Hle.
Qed.

Lemma get0_mergeWith_max a b k :
  get0 (mergeWith largestWins a b) k = get0 a k `max` get0 b k.
Proof.
  unfold get0, mergeWith, largestWins. rewrite lookup_union_with.
  destruct (a !! k), (b !! k); simpl; lia.
Qed.

Lemma pointwise_le_refl a : pointwise_le a a.
Proof. by intros k. Qed.

Lemma pointwise_le_trans a b c :
  pointwise_le a b → pointwise_le b c → pointwise_le a c.
Proof. intros H1 H2 k. specialize (H1 k). specialize (H2 k). lia. Qed.

Lemma pointwise_le_merge a b : pointwise_le a (mergeWith largestWins a b).
Proof. intros k. rewrite get0_mergeWith_max. lia. Qed.

(** C7 (as stated, refuted): a clock that stores an explicit zero for an
    actor and the empty clock are below each other, yet they are two
    different mappings. *)
Lemma lessOrEqual_both_not_equal :
  ¬ (lessOrEqual {[ "alice" := 0 ]} ∅ = true ∧ lessOrEqual ∅ {[ "alice" := 0 ]} = true
     ↔ ({[ "alice" := 0 ]} : Clock) = ∅).
Proof.
  intros [Hto _].
  assert (Heq : ({[ "alice" := 0 ]} : Clock) = ∅) by (apply Hto; by vm_compute).
  apply (f_equal (λ m : Clock, m !! "alice")) in Heq.
  by rewrite lookup_singleton_eq, lookup_empty in Heq.
Qed.

(** C7 (amended): [lessOrEqual a b] and [lessOrEqual b a] both hold exactly
    when the two clocks give every actor the same sequence number, an
    absent actor counting as zero. *)
Theorem lessOrEqual_both_iff_pointwise_eq a b :
  lessOrEqual a b = true ∧ lessOrEqual b a = true ↔ pointwise_eq a b.
Proof.
  rewrite !lessOrEqual_pointwise. unfold pointwise_le, pointwise_eq. split.
  - intros [Hab Hba] k. specialize (Hab k). specialize (Hba k). lia.
  - intros Heq. split; intros k; rewrite (Heq k); lia.
Qed.

(** For clocks without zero entries (every stored sequence number is
    positive, as for clocks produced by applying changes) pointwise
    equality is equality of mappings. *)
Lemma pointwise_eq_positive a b :
  map_Forall (λ _ n, 0 < n) a → map_Forall (λ _ n, 0 < n) b →
  pointwise_eq a b → a = b.
Proof.
  intros Ha Hb Heq. apply map_eq. intros k. specialize (Heq k).
  unfold get0 in Heq.
  destruct (a !! k) as [x|] eqn:Hak, (b !! k) as [y|] eqn:Hbk; simpl in Heq.
  - by subst.
  - apply Ha in Hak. lia.
  - apply Hb in Hbk. lia.
  - done.
Qed.

End ClockAlgebra.

(** ** Relations that every step of a computation keeps *)

Section Preservation.

Context {S : Type} (R : relation S) `{!PreOrder R}.

Lemma preserves_ret {A} (a : A) : preserves R (ret a).
Proof. intros s. simpl. reflexivity. Qed.

Lemma preserves_throw {A} (e : Error) : preserves R (throw (A:=A) e).
Proof. intros s. simpl. reflexivity. Qed.

Lemma preserves_gets {A} (f : S → A) : preserves R (gets f).
Proof. intros s. simpl. reflexivity. Qed.

Lemma preserves_modify (f : S → S) : (∀ s, R s (f s)) → preserves R (modify f).
Proof. intros Hf s. apply Hf. Qed.

Lemma preserves_bind {A B} (m : M S A) (k : A → M S B) :
  preserves R m → (∀ a, preserves R (k a)) → preserves R (bind m k).
Proof.
  intros Hm Hk s. unfold bind. specialize (Hm s).
  destruct (m s) as [[a|e] s']; simpl in *; [|done].
  transitivity s'; [done|apply Hk].
Qed.

Lemma preserves_forEach {A} (l : list A) (f : A → M S unit) :
  (∀ x, preserves R (f x)) → preserves R (forEach l f).
Proof.
  intros Hf. induction l as [|x l IH]; simpl.
  - apply preserves_ret.
  - apply preserves_bind; [apply Hf|done].
Qed.

End Preservation.

#[local] Instance same_preorder {S B} (f : S → B) : PreOrder (same f).
Proof. split; unfold same; [by intros s|intros s1 s2 s3; congruence]. Qed.

Create HintDb preserves.

(** Split a computation along its binds and case distinctions; a step that a
    lemma of the hint database covers is closed by that lemma. *)
Ltac preserves_auto :=
  repeat first
    [ solve [eauto with preserves]
    | apply preserves_ret
    | apply preserves_throw
    | apply preserves_gets
    | match goal with
      | |- PreOrder _ => apply _
      | |- preserves _ (bind _ _) => apply preserves_bind; [..|intros ?]
      | |- preserves _ (forEach _ _) => apply preserves_forEach; [..|intros ?]
      | |- preserves _ (match ?x with _ => _ end) => destruct x
      end ].

(** A sequence of computations run one after the other. *)
Lemma forEach_app {S A} (l1 l2 : list A) (f : A → M S unit) (s : S) :
  forEach (l1 ++ l2) f s =
  match forEach l1 f s with
  | (Ok _, s') => forEach l2 f s'
  | (Throw e, s') => (Throw e, s')
  end.
Proof.
  revert s. induction l1 as [|x l1 IH]; intros s; simpl; [done|].
  unfold bind. destruct (f x s) as [[[]|e] s']; [apply IH|done].
Qed.

(** A bind that returns went through both of its parts. *)
Lemma bind_Ok {S A B} (m : M S A) (k : A → M S B) (s s'' : S) (b : B) :
  bind m k s = (Ok b, s'') → ∃ a s', m s = (Ok a, s') ∧ k a s' = (Ok b, s'').
Proof.
  unfold bind. destruct (m s) as [[a|e] s']; [|done]. intros Hk. by exists a, s'.
Qed.

(** ** DocumentSync *)

Section DocumentSyncTheorems.

Import DocumentSync.

Context {Doc Change : Type} `{!Automerge Doc Change}.

Implicit Types this : DocumentSync Doc Change.
Implicit Types msg : Message Change.

(** *** What [docChanged] can do to the state *)

(** [docChanged] and the functions below it write the state in two ways only:
    they hand a message to [send], and they merge a clock into ours.  A
    relation kept by these two writes is kept by all of them. *)
Section OursAndSent.

Context (R : relation (DocumentSync Doc Change)) `{!PreOrder R}.

Hypothesis R_send : ∀ this f, R this (set_sent f this).

Hypothesis R_merge_ours : ∀ this c,
  R this (set_clock (set_slot Ours (Some (mergeWith largestWins (ourClock this) c))) this).

Lemma send_keeps msg : preserves R (send msg).
Proof. intros this. apply R_send. Qed.

Lemma updateClock_Ours_keeps arg : preserves R (updateClock Ours arg).
Proof. intros this. destruct arg; cbn; apply R_merge_ours. Qed.

Lemma getClockFromDoc_keeps : preserves R getClockFromDoc.
Proof. unfold getClockFromDoc, getState, wd_get. preserves_auto. Qed.

Lemma getClock_keeps which : preserves R (getClock which).
Proof. unfold getClock. preserves_auto. Qed.

Lemma wd_get_keeps : preserves R wd_get.
Proof. unfold wd_get. preserves_auto. Qed.

Lemma getState_keeps : preserves R getState.
Proof. apply wd_get_keeps. Qed.

#[local] Hint Resolve send_keeps updateClock_Ours_keeps getClockFromDoc_keeps
  getClock_keeps wd_get_keeps getState_keeps : preserves.

Lemma orClockFromDoc_keeps arg : preserves R (orClockFromDoc arg).
Proof. unfold orClockFromDoc. preserves_auto. Qed.

#[local] Hint Resolve orClockFromDoc_keeps : preserves.

Lemma validateDoc_keeps c : preserves R (validateDoc c).
Proof. unfold validateDoc. preserves_auto. Qed.

Lemma requestChanges_keeps arg : preserves R (requestChanges arg).
Proof. unfold requestChanges. preserves_auto. Qed.

#[local] Hint Resolve validateDoc_keeps requestChanges_keeps : preserves.

Lemma maybeRequestChanges_keeps arg : preserves R (maybeRequestChanges arg).
Proof. unfold maybeRequestChanges. preserves_auto. Qed.

Lemma sendChanges_keeps changes : preserves R (sendChanges changes).
Proof. unfold sendChanges. preserves_auto. Qed.

#[local] Hint Resolve maybeRequestChanges_keeps sendChanges_keeps : preserves.

Lemma maybeSendChanges_keeps : preserves R maybeSendChanges.
Proof. unfold maybeSendChanges. preserves_auto. Qed.

#[local] Hint Resolve maybeSendChanges_keeps : preserves.

Lemma docChanged_keeps : preserves R docChanged.
Proof. unfold docChanged. preserves_auto. Qed.

End OursAndSent.

(** *** Our clock only grows *)

Local Abbreviation grows := (oursGrows (Doc:=Doc) (Change:=Change)).

#[local] Instance oursGrows_preorder : PreOrder grows.
Proof.
  split.
  - intros this. apply pointwise_le_refl.
  - intros s1 s2 s3. apply pointwise_le_trans.
Qed.

Lemma grows_send this f : grows this (set_sent f this).
Proof. apply pointwise_le_refl. Qed.

Lemma grows_merge_ours this c :
  grows this (set_clock (set_slot Ours (Some (mergeWith largestWins (ourClock this) c))) this).
Proof. apply pointwise_le_merge. Qed.

Lemma docChanged_oursGrows : preserves grows docChanged.
Proof. apply docChanged_keeps; [apply _|apply grows_send|apply grows_merge_ours]. Qed.

Lemma maybeSendChanges_oursGrows : preserves grows maybeSendChanges.
Proof. apply maybeSendChanges_keeps; [apply _|apply grows_send|apply grows_merge_ours]. Qed.

Lemma validateDoc_oursGrows c : preserves grows (validateDoc c).
Proof. apply validateDoc_keeps; apply _. Qed.

Lemma requestChanges_oursGrows arg : preserves grows (requestChanges arg).
Proof. apply requestChanges_keeps; [apply _|apply grows_send]. Qed.

Lemma updateClock_oursGrows which arg : preserves grows (updateClock which arg).
Proof.
  intros this. unfold oursGrows, ourClock.
  destruct which, arg; cbn; try apply pointwise_le_merge; apply pointwise_le_refl.
Qed.

Lemma bind_docChanged_oursGrows : preserves grows bind_docChanged.
Proof. intros this. apply pointwise_le_refl. Qed.

Lemma registerHandler_oursGrows h : preserves grows (registerHandler h).
Proof. intros this. apply pointwise_le_refl. Qed.

Lemma unregisterHandler_oursGrows h : preserves grows (unregisterHandler h).
Proof. intros this. apply pointwise_le_refl. Qed.

Lemma getClockFromDoc_oursGrows : preserves grows getClockFromDoc.
Proof. intros this. apply pointwise_le_refl. Qed.

Lemma wd_get_oursGrows : preserves grows wd_get.
Proof. intros this. apply pointwise_le_refl. Qed.

Lemma store_doc_oursGrows (doc : Doc) :
  preserves grows (modify (set_watchableDoc (λ w,
    {| wd_doc := doc; wd_handlers := wd_handlers w |}))).
Proof. intros this. apply pointwise_le_refl. Qed.

#[local] Hint Resolve docChanged_oursGrows maybeSendChanges_oursGrows
  validateDoc_oursGrows requestChanges_oursGrows updateClock_oursGrows
  bind_docChanged_oursGrows registerHandler_oursGrows unregisterHandler_oursGrows
  getClockFromDoc_oursGrows wd_get_oursGrows store_doc_oursGrows : preserves.

Lemma wd_set_oursGrows doc : preserves grows (wd_set doc).
Proof. unfold wd_set. preserves_auto. Qed.

#[local] Hint Resolve wd_set_oursGrows : preserves.

Lemma wd_applyChanges_oursGrows changes : preserves grows (wd_applyChanges changes).
Proof. unfold wd_applyChanges. preserves_auto. Qed.

#[local] Hint Resolve wd_applyChanges_oursGrows : preserves.

Lemma open_oursGrows : preserves grows open.
Proof. unfold open. preserves_auto. Qed.

Lemma close_oursGrows : preserves grows close.
Proof. unfold close. preserves_auto. Qed.

Lemma receive_oursGrows msg : preserves grows (receive msg).
Proof. unfold receive. preserves_auto. Qed.

#[local] Hint Resolve open_oursGrows close_oursGrows receive_oursGrows : preserves.

Lemma step_oursGrows o : preserves grows (step o).
Proof. destruct o; simpl; preserves_auto. Qed.

(** Whatever the operations and however the run ends, our clock at the end is
    pointwise at least our clock at the start. *)
Lemma run_oursGrows ops : preserves grows (run ops).
Proof. apply preserves_forEach; [apply _|]. apply step_oursGrows. Qed.

(** C3: along a sequence of operations that completes without an exception,
    our clock at the end is pointwise at least our clock at any earlier point
    of the sequence. *)
Theorem ours_monotone (ops1 ops2 : list (Op Doc Change)) this :
  (run (ops1 ++ ops2) this).1 = Ok tt →
  pointwise_le (ourClock (run ops1 this).2) (ourClock (run (ops1 ++ ops2) this).2).
Proof.
  intros _. unfold run. rewrite forEach_app.
  destruct (forEach ops1 step this) as [[[]|e] this1]; simpl.
  - apply (run_oursGrows ops2 this1).
  - apply pointwise_le_refl.
Qed.

(** *** What [docChanged] leaves alone *)

Local Abbreviation fixed := (same (untouched (Doc:=Doc) (Change:=Change))).

Lemma fixed_send this f : fixed this (set_sent f this).
Proof. done. Qed.

Lemma fixed_merge_ours this c :
  fixed this (set_clock (set_slot Ours (Some (mergeWith largestWins (ourClock this) c))) this).
Proof. done. Qed.

Lemma docChanged_untouched this : untouched (docChanged this).2 = untouched this.
Proof.
  symmetry. apply (docChanged_keeps fixed); [apply fixed_send|apply fixed_merge_ours].
Qed.

Lemma maybeSendChanges_untouched this : untouched (maybeSendChanges this).2 = untouched this.
Proof.
  symmetry. apply (maybeSendChanges_keeps fixed); [apply fixed_send|apply fixed_merge_ours].
Qed.

Lemma validateDoc_untouched c this : untouched (validateDoc c this).2 = untouched this.
Proof. symmetry. apply (validateDoc_keeps fixed). Qed.

Lemma handlers_run_untouched (hs : list nat) this :
  untouched (forEach hs (λ _, docChanged) this).2 = untouched this.
Proof.
  symmetry. revert this. apply (preserves_forEach fixed). intros _ this.
  symmetry. apply docChanged_untouched.
Qed.

(** [watchableDoc.applyChanges] stores the changed document before any
    handler runs, and no handler writes the document, their clock or the
    handler set. *)
Lemma wd_applyChanges_untouched changes this :
  untouched (wd_applyChanges changes this).2 =
  (theirs (clock this),
   {| wd_doc := applyChanges (wd_doc (watchableDoc this)) changes;
      wd_handlers := wd_handlers (watchableDoc this) |},
   next_fn this).
Proof.
  unfold wd_applyChanges, wd_set, wd_get, bind, gets, modify, ret. cbn.
  match goal with
  | |- context [forEach ?hs _ ?s] =>
      pose proof (handlers_run_untouched hs s) as Hrun;
      destruct (forEach hs (λ _, docChanged) s) as [[[]|e] s']
  end; simpl in *; exact Hrun.
Qed.

(** *** The public API *)

(** C1: [receive] first merges the clock of the message, when there is one,
    into their clock; then it applies the changes of the message through the
    [applyChanges] of the observable wrapper, or, when the message has no
    changes, calls [maybeSendChanges]; and when these steps end normally it
    returns the document the wrapper holds then.  Their clock is the merged
    one at the end, and the document is the changed one or, without changes,
    the one before. *)
Theorem receive_spec msg this :
  let doc := wd_doc (watchableDoc this) in
  let theirs' :=
    match msg_clock msg with
    | Some c => Some (mergeWith largestWins (default ∅ (theirs (clock this))) c)
    | None => theirs (clock this)
    end in
  let this1 :=
    match msg_clock msg with
    | Some _ => set_clock (set_slot Theirs theirs') this
    | None => this
    end in
  let r :=
    match msg_changes msg with
    | Some changes => (let* _ := wd_applyChanges changes in ret tt) this1
    | None => maybeSendChanges this1
    end in
  receive msg this =
    (match r.1 with
     | Ok _ => Ok (wd_doc (watchableDoc r.2))
     | Throw e => Throw e
     end, r.2)
  ∧ theirs (clock r.2) = theirs'
  ∧ wd_doc (watchableDoc r.2) =
      match msg_changes msg with
      | Some changes => applyChanges doc changes
      | None => doc
      end.
Proof.
  intros doc theirs' this1 r.
  assert (Hfirst :
    (match msg_clock msg with
     | Some c => updateClock Theirs (Some c)
     | None => ret tt
     end) this = (Ok tt, this1)).
  { subst this1 theirs'. by destruct (msg_clock msg). }
  assert (H1 : theirs (clock this1) = theirs' ∧ wd_doc (watchableDoc this1) = doc).
  { subst this1 theirs'. by destruct (msg_clock msg). }
  destruct H1 as [Htheirs Hdoc].
  split; [|split].
  - unfold receive. unfold bind at 1 2. rewrite Hfirst. subst r.
    destruct (msg_changes msg) as [changes|].
    + by destruct (bind (wd_applyChanges changes) _ this1) as [[[]|e] this2].
    + by destruct (maybeSendChanges this1) as [[[]|e] this2].
  - subst r. destruct (msg_changes msg) as [changes|].
    + pose proof (wd_applyChanges_untouched changes this1) as Hun.
      unfold bind. destruct (wd_applyChanges changes this1) as [[d|e] this2];
        simpl in *; unfold untouched in Hun; simpl in Hun; congruence.
    + pose proof (maybeSendChanges_untouched this1) as Hun.
      unfold untouched in Hun. congruence.
  - subst r. destruct (msg_changes msg) as [changes|].
    + pose proof (wd_applyChanges_untouched changes this1) as Hun.
      unfold bind. destruct (wd_applyChanges changes this1) as [[d|e] this2];
        simpl in *; unfold untouched in Hun; simpl in Hun;
        injection Hun as _ Hw _; rewrite Hw; simpl; congruence.
    + pose proof (maybeSendChanges_untouched this1) as Hun.
      unfold untouched in Hun. congruence.
Qed.

(** [receive] does return when nothing it calls can throw: with changes and
    no subscribed handler, or without changes on a document that has a
    clock. *)
Lemma receive_returns msg this :
  match msg_changes msg with
  | Some _ => wd_handlers (watchableDoc this) = ∅
  | None => is_Some (docClock (wd_doc (watchableDoc this)))
  end →
  ∃ doc, (receive msg this).1 = Ok doc.
Proof.
  intros Hpre. unfold receive.
  destruct (msg_changes msg) as [changes|].
  - unfold wd_applyChanges, wd_set, wd_get, bind, gets, modify, ret.
    destruct (msg_clock msg); cbn; rewrite Hpre, elements_empty; simpl; eauto.
  - destruct Hpre as [c Hc].
    unfold maybeSendChanges, sendChanges, getClock, getClockFromDoc, getState, wd_get,
      updateClock, orClockFromDoc, send, bind, gets, modify, ret.
    destruct (msg_clock msg); cbn; repeat case_match; simplify_eq/=; eauto;
      rewrite ?Hc in *; simplify_eq/=; eauto.
Qed.

(** C2: [validateDoc c] fails with [NoClockError] exactly when [c] is
    missing; otherwise it fails with [OldClockError] exactly when
    [lessOrEqual ours c] is false; otherwise it succeeds; and it never
    changes the state. *)
Theorem validateDoc_spec (c : option Clock) this :
  let r := validateDoc c this in
  r.2 = this
  ∧ (r.1 = Throw NoClockError ↔ c = None)
  ∧ (r.1 = Throw OldClockError ↔
       ∃ c', c = Some c' ∧ lessOrEqual (ourClock this) c' = false)
  ∧ (r.1 = Ok tt ↔
       ∃ c', c = Some c' ∧ lessOrEqual (ourClock this) c' = true).
Proof.
  unfold validateDoc, getClock, bind, gets, ret, throw, ourClock. cbn.
  destruct c as [c'|]; cbn.
  - destruct (ours (clock this)) as [o|]; cbn;
      (destruct (lessOrEqual _ c') eqn:Hle; cbn;
       (split; [done|]); (split; [by split|]);
       split; split; try done; try (intros (? & ? & ?); congruence); eauto).
  - destruct (ours (clock this)); cbn; (split; [done|]); (split; [done|]);
      split; split; try done; intros (? & ? & ?); congruence.
Qed.

(** C6: [maybeRequestChanges c] always returns; it sends the message that
    carries the clock [c] and no changes when [lessOrEqual c ours] is false,
    and sends nothing and changes nothing when it is true. *)
Theorem maybeRequestChanges_spec (c : Clock) this :
  let bare := {| msg_clock := Some c; msg_changes := None |} in
  let r := maybeRequestChanges (Some c) this in
  r = (Ok tt, if lessOrEqual c (ourClock this) then this
              else set_sent (λ out, out ++ [bare]) this)
  ∧ (sent r.2 = sent this ++ [bare] ↔ lessOrEqual c (ourClock this) = false)
  ∧ (sent r.2 = sent this ↔ lessOrEqual c (ourClock this) = true).
Proof.
  intros bare r.
  assert (Hr : r = (Ok tt, if lessOrEqual c (ourClock this) then this
                           else set_sent (λ out, out ++ [bare]) this)).
  { subst r bare. unfold maybeRequestChanges, requestChanges, orClockFromDoc,
      getClock, send, bind, gets, modify, ret, ourClock. cbn.
    destruct (ours (clock this)); cbn; by destruct (lessOrEqual c _). }
  split; [done|]. rewrite Hr.
  destruct (lessOrEqual c (ourClock this)); simpl.
  - split; split; try done. intros Heq.
    apply (f_equal length) in Heq. rewrite length_app in Heq. simpl in Heq. lia.
  - split; split; try done. intros Heq.
    apply (f_equal length) in Heq. rewrite length_app in Heq. simpl in Heq. lia.
Qed.

(** *** The initial state and [maybeSendChanges] *)

(** When their clock is unknown, [maybeSendChanges] does nothing. *)
Lemma maybeSendChanges_theirs_unknown this :
  theirs (clock this) = None → maybeSendChanges this = (Ok tt, this).
Proof.
  intros Hnone. unfold maybeSendChanges, getClock, bind, gets, ret. cbn.
  by rewrite Hnone.
Qed.

(** Our clock starts empty. *)
Lemma constructor_ours (w : WatchableDoc Doc) n :
  ours (clock (constructor (Change:=Change) w n)) = Some ∅.
Proof. done. Qed.

(** C4 (the code departs from it): in a freshly constructed [DocumentSync]
    their clock is an empty clock, not the unknown clock, so
    [maybeSendChanges] does not stop there: when the document has changes
    that an empty clock lacks, it sends all of them, to a peer that has not
    yet said anything. *)
Theorem fresh_maybeSendChanges_sends (w : WatchableDoc Doc) n (c : Clock) :
  docClock (wd_doc w) = Some c →
  getMissingChanges (wd_doc w) ∅ ≠ [] →
  theirs (clock (constructor (Change:=Change) w n)) = Some ∅
  ∧ sent (maybeSendChanges (constructor w n)).2 =
      [{| msg_clock := Some c;
          msg_changes := Some (getMissingChanges (wd_doc w) ∅) |}].
Proof.
  intros Hclock Hmissing. split; [done|].
  unfold maybeSendChanges, sendChanges, getClock, getClockFromDoc, getState, wd_get,
    updateClock, orClockFromDoc, send, bind, gets, modify, ret. cbn.
  destruct (getMissingChanges (wd_doc w) ∅) as [|ch chs]; [done|].
  cbn. by rewrite Hclock.
Qed.

(** *** [open] and [close] *)

(** [close] asks the wrapper to unsubscribe a function object that was
    allocated for the occasion, so none of the subscribed handlers goes. *)
Lemma close_spec this :
  allocated this →
  close this = (Ok tt, set_next_fn S this).
Proof.
  intros Halloc. unfold close, bind_docChanged, unregisterHandler, bind, gets,
    modify, ret. cbn. f_equal.
  destruct this as [[doc hs] cl out next]. unfold set_next_fn, set_watchableDoc.
  simpl in *. do 2 f_equal.
  apply set_eq. intros h. rewrite elem_of_difference, elem_of_singleton.
  split; [by intros [? _]|]. intros Hin. split; [done|].
  intros ->. specialize (Halloc _ Hin). simpl in Halloc. lia.
Qed.

(** A successful [open] subscribes the function object it allocates. *)
Lemma open_subscribes this :
  (open this).1 = Ok tt →
  wd_handlers (watchableDoc (open this).2) =
    wd_handlers (watchableDoc this) ∪ {[ next_fn this ]}
  ∧ next_fn (open this).2 = S (next_fn this).
Proof.
  destruct (open this) as [r opened] eqn:Hopen. simpl. intros ->.
  unfold open in Hopen.
  apply bind_Ok in Hopen as (c & this0 & Hc & Hopen).
  apply bind_Ok in Hopen as ([] & this1 & Hv & Hopen).
  apply bind_Ok in Hopen as ([] & this2 & Hr & Hopen).
  apply bind_Ok in Hopen as ([] & this3 & Hu & Hopen).
  pose proof (getClockFromDoc_keeps fixed this) as H0. rewrite Hc in H0.
  pose proof (validateDoc_keeps fixed c this0) as H1. rewrite Hv in H1.
  pose proof (requestChanges_keeps fixed fixed_send c this1) as H2. rewrite Hr in H2.
  pose proof (updateClock_Ours_keeps fixed fixed_merge_ours c this2) as H3.
  rewrite Hu in H3.
  assert (Hsame : untouched this3 = untouched this).
  { unfold same in *. simpl in *. congruence. }
  unfold bind_docChanged, registerHandler, bind, gets, modify, ret in Hopen.
  injection Hopen as <-. unfold untouched in Hsame. simpl.
  injection Hsame as _ Hw Hn. by rewrite Hw, Hn.
Qed.

(** C5 (the code departs from it): [close] hands no message to [send], but
    it does not unsubscribe the handler that [open] subscribed.  After a
    successful [open] followed by [close], that handler is still in the
    handler set of the wrapper, which is the set [open] left. *)
Theorem close_keeps_handler this :
  allocated this →
  (open this).1 = Ok tt →
  let opened := (open this).2 in
  let closed := (close opened).2 in
  (close opened).1 = Ok tt
  ∧ sent closed = sent opened
  ∧ next_fn this ∈ wd_handlers (watchableDoc closed)
  ∧ wd_handlers (watchableDoc closed) = wd_handlers (watchableDoc opened).
Proof.
  intros Halloc Hopen opened closed.
  destruct (open_subscribes this Hopen) as [Hhs Hnext]. fold opened in Hhs, Hnext.
  assert (Hopened : allocated opened).
  { intros h. rewrite Hhs, Hnext, elem_of_union, elem_of_singleton.
    intros [Hin| ->]; [|lia]. specialize (Halloc _ Hin). lia. }
  subst closed. rewrite (close_spec opened Hopened). simpl.
  repeat split; try done. rewrite Hhs.
  apply elem_of_union. right. by apply elem_of_singleton.
Qed.

(** *** [receive] and our clock *)

(** C10 (amended): [receive] writes our clock only through the sending of
    changes and through [docChanged].  When the message carries changes and
    no handler is subscribed to the document, or when it carries no changes
    and [receive] sends nothing, our clock after [receive] is our clock
    before. *)
Theorem receive_ours_unchanged msg this :
  match msg_changes msg with
  | Some _ => wd_handlers (watchableDoc this) = ∅
  | None => sent (receive msg this).2 = sent this
  end →
  ours (clock (receive msg this).2) = ours (clock this).
Proof.
  unfold receive. destruct (msg_changes msg) as [changes|].
  - intros Hnone.
    unfold wd_applyChanges, wd_set, wd_get, bind, gets, modify, ret.
    destruct (msg_clock msg); cbn; by rewrite Hnone, elements_empty.
  - unfold maybeSendChanges, sendChanges, getClock, getClockFromDoc, getState, wd_get,
      updateClock, orClockFromDoc, send, bind, gets, modify, ret, throw.
    destruct (msg_clock msg); cbn; repeat case_match; simplify_eq/=; try done;
      intros Heq; apply (f_equal length) in Heq; rewrite length_app in Heq;
      simpl in Heq; lia.
Qed.

End DocumentSyncTheorems.

(** ** StoreManager *)

Section StoreManagerTheorems.

Import StoreManager.

Context {Repo Store : Type}.

Implicit Types this : StoreManager Repo Store.

Local Abbreviation removeAll :=
  (foldl (λ (this : StoreManager Repo Store) peerId, removePeer peerId this)).

Lemma removeAll_listeners (peerIds : list string) this :
  listeners (removeAll this peerIds) = listeners this
  ∧ notified (removeAll this peerIds) = notified this.
Proof.
  revert this. induction peerIds as [|k ks IH]; intros this; [done|].
  simpl. by destruct (IH (removePeer k this)) as [-> ->].
Qed.

Lemma removeAll_closed_mono (peerIds : list string) this (c : Connection) :
  c ∈ closed this → c ∈ closed (removeAll this peerIds).
Proof.
  revert this. induction peerIds as [|k ks IH]; intros this Hin; [done|].
  simpl. apply IH. unfold removePeer. simpl.
  destruct (connections this !! k); [|done]. apply elem_of_app. by left.
Qed.

(** Each connection recorded under one of the peer ids gets its [close]
    called. *)
Lemma removeAll_closes (peerIds : list string) this k (c : Connection) :
  k ∈ peerIds → connections this !! k = Some c →
  c ∈ closed (removeAll this peerIds).
Proof.
  revert this. induction peerIds as [|k0 ks IH]; intros this Hin Hk.
  - by apply not_elem_of_nil in Hin.
  - simpl. destruct (decide (k = k0)) as [->|Hne].
    + apply removeAll_closed_mono. unfold removePeer. simpl. rewrite Hk.
      apply elem_of_app. right. by apply list_elem_of_singleton.
    + apply elem_of_cons in Hin as [?|Hin]; [done|].
      apply IH; [done|]. unfold removePeer. simpl. by rewrite lookup_delete_ne.
Qed.

(** C8 (the code departs from it): [close] calls [close] on every connection
    it holds, leaves the map of connections empty and drops the repository
    and the store; but it starts by removing every listener, so the [emit]
    of the close event at its end calls no listener at all. *)
Theorem close_notifies_nobody this :
  let after := close this in
  connections after = ∅
  ∧ connectionCount after = 0
  ∧ (∀ peerId c, connections this !! peerId = Some c → c ∈ closed after)
  ∧ repo after = None
  ∧ store after = None
  ∧ notified after = notified this.
Proof.
  unfold close, connectionCount, emit, listenersOf. simpl.
  set (peerIds := (map_to_list (connections this)).*1).
  destruct (removeAll_listeners peerIds (removeAllListeners this)) as [Hl Hn].
  repeat split; try done.
  - intros k c Hk. apply (removeAll_closes peerIds _ k); [|done].
    subst peerIds. apply list_elem_of_fmap. exists (k, c). split; [done|].
    by apply elem_of_map_to_list.
  - rewrite Hl, Hn. simpl. by rewrite app_nil_r.
Qed.

(** C9 (amended): when the store and the repository exist, [addPeer] records
    the new connection under the id of the peer, in the place of a
    connection recorded there before, so that the id has exactly one
    connection, the new one; the connections under other ids stay and
    [addPeer] calls [close] on no connection. *)
Theorem addPeer_replaces (peer : Peer) (discoveryKey : string) this :
  is_Some (store this) → is_Some (repo this) →
  let connection :=
    {| serial := next_serial this; socket := (peer_id peer, discoveryKey) |} in
  let after := addPeer peer discoveryKey this in
  connections after = <[ peer_id peer := connection ]> (connections this)
  ∧ connections after !! peer_id peer = Some connection
  ∧ closed after = closed this.
Proof.
  intros [st Hst] [r Hr]. unfold addPeer. rewrite Hst, Hr. simpl.
  repeat split. apply lookup_insert_eq.
Qed.

End StoreManagerTheorems.

(** ** The code on concrete states *)

Section Evaluations.

Import DocumentSync Scenario.
Import (hints) LogDoc.

(** A run of [open], a push, a pull and [close] that completes. *)
Lemma ours_monotone_witness :
  let ops1 := [OpOpen; OpReceive push] in
  let ops2 := [OpReceive pull; OpClose] in
  (run (ops1 ++ ops2) fresh).1 = Ok tt
  ∧ pointwise_le (ourClock (run ops1 fresh).2) (ourClock (run (ops1 ++ ops2) fresh).2).
Proof.
  intros ops1 ops2.
  assert (Hrun : (run (ops1 ++ ops2) fresh).1 = Ok tt) by (vm_compute; reflexivity).
  split; [exact Hrun|]. exact (ours_monotone ops1 ops2 fresh Hrun).
Defined.

(** A freshly constructed [DocumentSync] over a document with one change. *)
Lemma fresh_maybeSendChanges_sends_witness :
  docClock LogDoc.one = Some (LogDoc.clockOf [("alice", 1)])
  ∧ getMissingChanges LogDoc.one ∅ ≠ []
  ∧ theirs (clock fresh) = Some ∅
  ∧ sent (maybeSendChanges fresh).2 =
      [{| msg_clock := Some (LogDoc.clockOf [("alice", 1)]);
          msg_changes := Some (getMissingChanges LogDoc.one ∅) |}].
Proof.
  assert (H1 : docClock LogDoc.one = Some (LogDoc.clockOf [("alice", 1)]))
    by reflexivity.
  assert (H2 : getMissingChanges LogDoc.one ∅ ≠ [])
    by (vm_compute; discriminate).
  split; [exact H1|]. split; [exact H2|].
  exact (fresh_maybeSendChanges_sends
           {| wd_doc := LogDoc.one; wd_handlers := ∅ |} 0 _ H1 H2).
Defined.

(** [open] then [close] on a freshly constructed [DocumentSync]. *)
Lemma close_keeps_handler_witness :
  allocated fresh
  ∧ (open fresh).1 = Ok tt
  ∧ (close (open fresh).2).1 = Ok tt
  ∧ sent (close (open fresh).2).2 = sent (open fresh).2
  ∧ next_fn fresh ∈ wd_handlers (watchableDoc (close (open fresh).2).2)
  ∧ wd_handlers (watchableDoc (close (open fresh).2).2) =
      wd_handlers (watchableDoc (open fresh).2).
Proof.
  assert (H1 : allocated fresh).
  { intros h Hh. simpl in Hh. by apply not_elem_of_empty in Hh. }
  assert (H2 : (open fresh).1 = Ok tt) by (vm_compute; reflexivity).
  split; [exact H1|]. split; [exact H2|].
  exact (close_keeps_handler fresh H1 H2).
Defined.

(** C5, on a concrete run: after [open] and [close], storing a new document
    in the wrapper still makes this [DocumentSync] call [send]. *)
Example send_after_close :
  sent (run [OpOpen; OpClose] fresh).2 =
    [{| msg_clock := Some {[ "alice" := 1 ]}; msg_changes := None |}]
  ∧ sent (run [OpOpen; OpClose; OpSet LogDoc.two] fresh).2 =
    [{| msg_clock := Some {[ "alice" := 1 ]}; msg_changes := None |};
     {| msg_clock := Some {[ "alice" := 2 ]};
        msg_changes := Some [("alice", 1); ("alice", 2)] |}].
Proof. split; vm_compute; reflexivity. Qed.

(** The same run when the handler is taken out of the set, as the
    specification expects of [close]: nothing more is sent. *)
Example no_send_when_unsubscribed :
  sent ((let* _ := open in let* _ := unregisterHandler 0 in wd_set LogDoc.two) fresh).2 =
    [{| msg_clock := Some {[ "alice" := 1 ]}; msg_changes := None |}].
Proof. vm_compute. reflexivity. Qed.

(** C10 (as stated, refuted): a pull request received from a peer that holds
    nothing makes [receive] send the changes of the document, and sending
    them merges the clock of the document into ours. *)
Lemma receive_pull_changes_ours :
  ours (clock (receive pull unknownPeer).2) ≠ ours (clock unknownPeer).
Proof.
  intros Heq.
  apply (f_equal (λ o : option Clock, get0 (default ∅ o) "alice")) in Heq.
  vm_compute in Heq. discriminate Heq.
Qed.

(** A push received while no handler is subscribed. *)
Lemma receive_ours_unchanged_witness :
  wd_handlers (watchableDoc unknownPeer) = ∅
  ∧ ours (clock (receive push unknownPeer).2) = ours (clock unknownPeer).
Proof.
  assert (H1 : wd_handlers (watchableDoc unknownPeer) = ∅) by reflexivity.
  split; [exact H1|]. exact (receive_ours_unchanged push unknownPeer H1).
Defined.

(** C1, C2 and C6 on concrete inputs. *)
Example receive_push :
  (receive push unknownPeer).1 =
    Ok {| LogDoc.replica := true; LogDoc.log := [("alice", 1); ("bob", 1)] |}
  ∧ theirs (clock (receive push unknownPeer).2) = Some {[ "bob" := 1 ]}.
Proof. split; vm_compute; reflexivity. Qed.

Example validateDoc_old_clock :
  (run [OpOpen; OpSet LogDoc.empty] fresh).1 = Throw OldClockError
  ∧ (run [OpOpen; OpSet LogDoc.snapshot] fresh).1 = Throw NoClockError.
Proof. split; vm_compute; reflexivity. Qed.

Example maybeRequestChanges_ahead :
  sent (maybeRequestChanges (Some {[ "alice" := 1 ]}) unknownPeer).2 =
    [{| msg_clock := Some {[ "alice" := 1 ]}; msg_changes := None |}]
  ∧ sent (maybeRequestChanges (Some ∅) unknownPeer).2 = [].
Proof. split; vm_compute; reflexivity. Qed.

(** C8, on a concrete state: the listener for the close event is never
    called, and the connection to bob is closed. *)
Example close_event_lost :
  StoreManager.listenersOf "close" manager = [7]
  ∧ StoreManager.notified (StoreManager.close manager) = []
  ∧ StoreManager.closed (StoreManager.close manager) = [toBob].
Proof. repeat split; vm_compute; reflexivity. Qed.

(** C9 (as stated, refuted): bob is adopted again while a connection to bob
    is recorded; the recorded connection is replaced and its [close] is not
    called. *)
Lemma addPeer_prior_not_closed :
  let after := StoreManager.addPeer {| StoreManager.peer_id := "bob" |} "doc" manager in
  StoreManager.connections manager !! "bob" = Some toBob
  ∧ StoreManager.connections after !! "bob" ≠ Some toBob
  ∧ toBob ∉ StoreManager.closed after.
Proof.
  split; [by vm_compute|]. split.
  - vm_compute. intros Heq. discriminate Heq.
  - vm_compute. apply not_elem_of_nil.
Qed.

(** Bob adopted again by a manager that has a store and a repository. *)
Lemma addPeer_replaces_witness :
  let peer := {| StoreManager.peer_id := "bob" |} in
  let after := StoreManager.addPeer peer "doc" manager in
  let connection :=
    {| StoreManager.serial := 1; StoreManager.socket := ("bob", "doc") |} in
  is_Some (StoreManager.store manager)
  ∧ is_Some (StoreManager.repo manager)
  ∧ StoreManager.connections after =
      <[ "bob" := connection ]> (StoreManager.connections manager)
  ∧ StoreManager.connections after !! "bob" = Some connection
  ∧ StoreManager.closed after = StoreManager.closed manager.
Proof.
  intros peer after connection.
  assert (H1 : is_Some (StoreManager.store manager)) by (exists tt; reflexivity).
  assert (H2 : is_Some (StoreManager.repo manager)) by (exists tt; reflexivity).
  split; [exact H1|]. split; [exact H2|].
  exact (addPeer_replaces peer "doc" manager H1 H2).
Defined.

End Evaluations.

(** ** More on the clock merge *)

Section MergeTheorems.

Implicit Types a b c : Clock.

Local Abbreviation merge := (mergeWith largestWins).

Lemma merge_lookup a b k :
  merge a b !! k = union_with (λ x y, Some (x `max` y)) (a !! k) (b !! k).
Proof. unfold mergeWith, largestWins. apply lookup_union_with. Qed.

Lemma merge_idemp a : merge a a = a.
Proof.
  apply map_eq. intros k. rewrite merge_lookup.
  destruct (a !! k); simpl; [|done]. f_equal. lia.
Qed.

Lemma merge_comm a b : merge a b = merge b a.
Proof.
  apply map_eq. intros k. rewrite !merge_lookup.
  destruct (a !! k), (b !! k); simpl; try done. f_equal. lia.
Qed.

Lemma merge_assoc a b c : merge a (merge b c) = merge (merge a b) c.
Proof.
  apply map_eq. intros k. rewrite !merge_lookup.
  destruct (a !! k), (b !! k), (c !! k); simpl; try done. f_equal. lia.
Qed.

(** Merging a clock in a second time changes nothing. *)
Lemma merge_absorb a b : merge (merge a b) b = merge a b.
Proof. by rewrite <-merge_assoc, merge_idemp. Qed.

Lemma lessOrEqual_merge_r a b : lessOrEqual b (merge a b) = true.
Proof.
  apply lessOrEqual_pointwise. intros k. rewrite get0_mergeWith_max. lia.
Qed.

Lemma lessOrEqual_merge_back a b :
  lessOrEqual a b = true → lessOrEqual (merge a b) b = true.
Proof.
  rewrite !lessOrEqual_pointwise. intros Hab k. specialize (Hab k).
  rewrite get0_mergeWith_max. lia.
Qed.

(** X1: the merge that [updateClock] applies, [mergeWith] with
    [largestWins], is idempotent, commutative and associative on clocks as
    mappings. *)
Theorem merge_semilattice a b c :
  mergeWith largestWins a a = a
  ∧ mergeWith largestWins a b = mergeWith largestWins b a
  ∧ mergeWith largestWins a (mergeWith largestWins b c) =
      mergeWith largestWins (mergeWith largestWins a b) c.
Proof. split; [apply merge_idemp|]. split; [apply merge_comm|apply merge_assoc]. Qed.

(** X2: the merged clock is the least clock pointwise above both: it is
    above either argument, and below every clock that is above both. *)
Theorem merge_least_upper_bound a b :
  pointwise_le a (mergeWith largestWins a b)
  ∧ pointwise_le b (mergeWith largestWins a b)
  ∧ ∀ c, pointwise_le a c → pointwise_le b c →
         pointwise_le (mergeWith largestWins a b) c.
Proof.
  split; [apply pointwise_le_merge|]. split.
  - intros k. rewrite get0_mergeWith_max. lia.
  - intros c Ha Hb k. specialize (Ha k). specialize (Hb k).
    rewrite get0_mergeWith_max. lia.
Qed.

End MergeTheorems.

(** ** More on DocumentSync *)

Section DocumentSyncMore.

Import DocumentSync.

Context {Doc Change : Type} `{!Automerge Doc Change}.

Implicit Types this : DocumentSync Doc Change.
Implicit Types msg : Message Change.

Local Abbreviation merge := (mergeWith largestWins).

(** *** [open] and [docChanged], case by case *)

Lemma open_cases this :
  open this =
  match docClock (wd_doc (watchableDoc this)) with
  | None => (Throw NoClockError, this)
  | Some c =>
      if lessOrEqual (ourClock this) c then (Ok tt, opened c this)
      else (Throw OldClockError, this)
  end.
Proof.
  destruct this as [[doc hs] [o t] out next].
  unfold open, validateDoc, requestChanges, updateClock, orClockFromDoc,
    getClockFromDoc, getState, wd_get, getClock, bind_docChanged,
    registerHandler, send, bind, gets, modify, ret, throw, opened, ourClock.
  cbn. destruct (docClock doc) as [c|]; cbn; [|by destruct o].
  destruct o as [o|]; cbn; by destruct (lessOrEqual _ c).
Qed.

Lemma docChanged_cases this :
  docChanged this =
  match docClock (wd_doc (watchableDoc this)) with
  | None => (Throw NoClockError, this)
  | Some c =>
      if lessOrEqual (ourClock this) c
      then (Ok tt,
            set_sent (λ out, out ++ announced c this)
              (set_clock (set_slot Ours (Some (merge (ourClock this) c))) this))
      else (Throw OldClockError, this)
  end.
Proof.
  destruct this as [[doc hs] [o t] out next].
  unfold docChanged, validateDoc, maybeSendChanges, sendChanges,
    maybeRequestChanges, requestChanges, updateClock, orClockFromDoc,
    getClockFromDoc, getState, wd_get, getClock, send, bind, gets, modify, ret,
    throw, announced, missing, ourClock, set_sent, set_clock, set_slot.
  destruct o as [o|]; cbn -[mergeWith lessOrEqual];
    (destruct (docClock doc) as [c|] eqn:Hc; cbn -[mergeWith lessOrEqual]; [|done]);
    (destruct (lessOrEqual _ c) eqn:Hle; cbn -[mergeWith lessOrEqual]; [|done]);
    (destruct t as [t|]; cbn -[mergeWith lessOrEqual];
      [destruct (getMissingChanges doc t) as [|ch chs] eqn:Hm;
       cbn -[mergeWith lessOrEqual]|]);
    repeat (progress (rewrite ?Hc, ?lessOrEqual_merge_r, ?merge_absorb;
                      cbn -[mergeWith lessOrEqual]));
    try done;
    destruct (lessOrEqual c _); cbn -[mergeWith lessOrEqual]; by rewrite ?app_nil_r.
Qed.

Lemma maybeSendChanges_cases this :
  maybeSendChanges this =
  if 0 <? length (missing this)
  then match docClock (wd_doc (watchableDoc this)) with
       | Some c =>
           (Ok tt,
            set_sent (λ out, out ++ [{| msg_clock := Some c;
                                        msg_changes := Some (missing this) |}])
              (set_clock (set_slot Ours (Some (merge (ourClock this) c))) this))
       | None => (Throw (TypeError ERR_UNDEFINED), this)
       end
  else (Ok tt, this).
Proof.
  destruct this as [[doc hs] [o t] out next].
  unfold maybeSendChanges, sendChanges, updateClock, orClockFromDoc,
    getClockFromDoc, getState, wd_get, getClock, send, bind, gets, modify, ret,
    throw, missing, ourClock, set_sent, set_clock, set_slot.
  destruct t as [t|]; cbn -[mergeWith]; [|done].
  destruct (getMissingChanges doc t) as [|ch chs]; cbn -[mergeWith]; [done|].
  destruct (docClock doc) as [c|] eqn:Hc; cbn -[mergeWith]; [|done].
  by rewrite Hc.
Qed.

(** X3: on a document whose clock [c] is not older than ours, [open]
    returns after exactly these writes: the message that carries [c] and no
    changes is sent, [c] is merged into ours, and a newly allocated handler
    is subscribed; their clock and the document stay. *)
Theorem open_on_current_document this (c : Clock) :
  docClock (wd_doc (watchableDoc this)) = Some c →
  lessOrEqual (ourClock this) c = true →
  open this = (Ok tt, opened c this).
Proof. intros Hc Hle. by rewrite open_cases, Hc, Hle. Qed.




(** X7: once [docChanged] has returned and the peer misses nothing, a
    further [docChanged] on the same document sends nothing and changes
    nothing. *)
Theorem docChanged_idle this :
  (docChanged this).1 = Ok tt →
  missing this = [] →
  docChanged (docChanged this).2 = (Ok tt, (docChanged this).2).
Proof.
  rewrite (docChanged_cases this).
  destruct (docClock (wd_doc (watchableDoc this))) as [c|] eqn:Hc; [|done].
  destruct (lessOrEqual (ourClock this) c) eqn:Hle; [|done].
  intros _ Hmiss. simpl. rewrite docChanged_cases. simpl. rewrite Hc.
  unfold ourClock at 1. simpl. rewrite (lessOrEqual_merge_back _ _ Hle).
  destruct this as [[doc hs] [o t] out next].
  unfold announced, missing, ourClock, set_sent, set_clock, set_slot in *.
  simpl in *. rewrite Hmiss. simpl.
  rewrite lessOrEqual_merge_r, merge_absorb. by rewrite !app_nil_r.
Qed.

(** X8: sending changes does not advance their clock, so until the peer
    answers, [maybeSendChanges] sends again what it has sent before. *)
Theorem maybeSendChanges_repeats this :
  ∃ msgs,
    sent (maybeSendChanges this).2 = sent this ++ msgs
    ∧ sent (maybeSendChanges (maybeSendChanges this).2).2 =
        sent (maybeSendChanges this).2 ++ msgs.
Proof.
  rewrite (maybeSendChanges_cases this).
  destruct (0 <? length (missing this)) eqn:Hlen.
  - destruct (docClock (wd_doc (watchableDoc this))) as [c|] eqn:Hc.
    + eexists. split; [done|]. rewrite maybeSendChanges_cases.
      destruct this as [[doc hs] [o t] out next].
      unfold missing, set_sent, set_clock, set_slot in *. simpl in *.
      by rewrite Hlen, Hc.
    + exists []. simpl. rewrite maybeSendChanges_cases, Hlen, Hc.
      by rewrite app_nil_r.
  - exists []. simpl. rewrite maybeSendChanges_cases, Hlen. by rewrite app_nil_r.
Qed.

(** *** [receive] *)

Lemma receive_theirs msg this :
  theirs (clock (receive msg this).2) =
  match msg_clock msg with
  | Some c => Some (merge (theirClock this) c)
  | None => theirs (clock this)
  end.
Proof.
  unfold receive, bind at 1 2.
  set (first := match msg_clock msg with
                | Some c => updateClock Theirs (Some c)
                | None => ret tt
                end this).
  assert (Hfirst : first.1 = Ok tt ∧
    theirs (clock first.2) =
      match msg_clock msg with
      | Some c => Some (merge (theirClock this) c)
      | None => theirs (clock this)
      end).
  { subst first. by destruct (msg_clock msg). }
  destruct first as [[[]|e] this1]; destruct Hfirst as [Hok Ht]; [|done].
  simpl in Ht. rewrite <-Ht.
  destruct (msg_changes msg) as [changes|].
  - pose proof (wd_applyChanges_untouched changes this1) as Hun.
    unfold bind. destruct (wd_applyChanges changes this1) as [[d|e] this2];
      simpl in *; unfold untouched in Hun; simpl in Hun; congruence.
  - pose proof (maybeSendChanges_untouched this1) as Hun.
    destruct (maybeSendChanges this1) as [[[]|e] this2];
      simpl in *; unfold untouched in Hun; simpl in Hun; congruence.
Qed.

(** X9: a pull, a message with a clock [c] and no changes, on a document
    that has a clock [d]: [receive] merges [c] into their clock and returns
    the document; it answers with the changes the merged clock lacks,
    stamped with [d], and merges [d] into ours; when nothing is missing it
    sends nothing and leaves ours alone. *)
Theorem receive_pull_answers this (c d : Clock) :
  docClock (wd_doc (watchableDoc this)) = Some d →
  let this1 := set_clock (set_slot Theirs (Some (merge (theirClock this) c))) this in
  receive {| msg_clock := Some c; msg_changes := None |} this =
    (Ok (wd_doc (watchableDoc this)),
     if 0 <? length (missing this1)
     then set_sent (λ out, out ++ [{| msg_clock := Some d;
                                      msg_changes := Some (missing this1) |}])
            (set_clock (set_slot Ours (Some (merge (ourClock this) d))) this1)
     else this1).
Proof.
  intros Hd this1. unfold receive. simpl. unfold bind at 1 2.
  assert (Hfirst : updateClock Theirs (Some c) this = (Ok tt, this1)) by done.
  rewrite Hfirst, maybeSendChanges_cases.
  assert (Hdoc : wd_doc (watchableDoc this1) = wd_doc (watchableDoc this)) by done.
  assert (Hours : ourClock this1 = ourClock this) by done.
  rewrite Hdoc, Hd, Hours.
  by destruct (0 <? length (missing this1)).
Qed.

(** X10: receiving the same message a second time leaves their clock as the
    first reception left it. *)
Theorem receive_twice_theirs msg this :
  theirs (clock (receive msg (receive msg this).2).2) =
  theirs (clock (receive msg this).2).
Proof.
  rewrite (receive_theirs msg (receive msg this).2).
  destruct (msg_clock msg) as [c|] eqn:Hc; [|done].
  unfold theirClock. rewrite (receive_theirs msg this), Hc. simpl.
  by rewrite merge_absorb.
Qed.

(** *** Their clock along a run *)

Local Abbreviation theirsOf := (λ this, theirs (clock this)).

Lemma docChanged_theirs : preserves (same theirsOf) docChanged.
Proof. by apply docChanged_keeps; [apply _| |]. Qed.

Lemma open_theirs : preserves (same theirsOf) open.
Proof.
  intros this. unfold same. rewrite open_cases.
  destruct (docClock _) as [c|]; [|done]. by destruct (lessOrEqual _ c).
Qed.

Lemma close_theirs : preserves (same theirsOf) close.
Proof. by intros this. Qed.

Lemma wd_set_theirs (doc : Doc) : preserves (same theirsOf) (wd_set doc).
Proof.
  unfold wd_set. apply preserves_bind; [apply _|by intros this|intros _].
  apply preserves_bind; [apply _|by intros this|intros hs].
  apply preserves_forEach; [apply _|intros _]. apply docChanged_theirs.
Qed.

Lemma step_theirs (o : Op Doc Change) :
  notReceive o = true → preserves (same theirsOf) (step o).
Proof.
  destruct o; simpl; intros Hnot;
    [apply open_theirs|apply close_theirs|done|apply docChanged_theirs
    |apply wd_set_theirs].
Qed.

(** X11: only [receive] writes their clock: a sequence of operations without
    a [receive] leaves it as it was, however the sequence ends. *)
Theorem theirs_written_by_receive_only (ops : list (Op Doc Change)) this :
  forallb notReceive ops = true →
  theirs (clock (run ops this).2) = theirs (clock this).
Proof.
  intros Hops. symmetry. revert this.
  change (preserves (same theirsOf) (run ops)).
  induction ops as [|o ops IH]; simpl in *.
  - by intros this.
  - apply andb_prop in Hops as [Ho Hops].
    apply preserves_bind; [apply _|by apply step_theirs|intros _]. by apply IH.
Qed.

Local Abbreviation theirsUp := (theirsGrows (Doc:=Doc) (Change:=Change)).

#[local] Instance theirsGrows_preorder : PreOrder theirsUp.
Proof.
  split.
  - intros this. split; [apply pointwise_le_refl|done].
  - intros s1 s2 s3 [H12 K12] [H23 K23].
    split; [by eapply pointwise_le_trans|auto].
Qed.

Lemma same_theirsGrows this this' : same theirsOf this this' → theirsUp this this'.
Proof.
  unfold same, theirsGrows, theirClock. intros ->.
  split; [apply pointwise_le_refl|done].
Qed.

Lemma step_theirsGrows (o : Op Doc Change) : preserves theirsUp (step o).
Proof.
  destruct (notReceive o) eqn:Hnot.
  - intros this. apply same_theirsGrows. by apply step_theirs.
  - destruct o as [| |msg| |]; try done. intros this. simpl.
    unfold theirsGrows. unfold theirClock at 2.
    assert (Hstep : (bind (receive msg) (λ _, ret tt) this).2 = (receive msg this).2).
    { unfold bind. by destruct (receive msg this) as [[d|e] this1]. }
    rewrite Hstep, receive_theirs.
    destruct (msg_clock msg) as [c|]; simpl.
    + split; [apply pointwise_le_merge|eauto].
    + split; [apply pointwise_le_refl|done].
Qed.

(** X12: along any sequence of operations their clock only grows, pointwise
    and with a missing clock read as the empty one, and once it is known it
    stays known. *)
Theorem theirs_monotone (ops : list (Op Doc Change)) this :
  pointwise_le (theirClock this) (theirClock (run ops this).2)
  ∧ (is_Some (theirs (clock this)) → is_Some (theirs (clock (run ops this).2))).
Proof.
  revert this. change (preserves theirsUp (run ops)).
  apply preserves_forEach; [apply _|]. apply step_theirsGrows.
Qed.

(** *** Handlers along a run *)

Local Abbreviation subs := (subscriptions (Doc:=Doc) (Change:=Change)).

Lemma untouched_subscriptions this this' :
  untouched this' = untouched this → subs this' = subs this.
Proof. unfold untouched, subscriptions. by intros [= _ -> ->]. Qed.

Lemma wd_set_subscriptions (doc : Doc) this :
  subs (wd_set doc this).2 = subs this.
Proof.
  unfold wd_set, bind, gets, modify. cbn.
  match goal with
  | |- context [forEach ?hs _ ?s] =>
      pose proof (handlers_run_untouched hs s) as Hrun;
      destruct (forEach hs (λ _, docChanged) s) as [[[]|e] s']
  end; simpl in *; by apply untouched_subscriptions in Hrun.
Qed.

Lemma receive_subscriptions msg this :
  subs (receive msg this).2 = subs this.
Proof.
  unfold receive, bind at 1 2.
  set (first := match msg_clock msg with
                | Some c => updateClock Theirs (Some c)
                | None => ret tt
                end this).
  assert (Hfirst : first.1 = Ok tt ∧ subs first.2 = subs this).
  { subst first. by destruct (msg_clock msg). }
  destruct first as [[[]|e] this1]; destruct Hfirst as [Hok Hs]; [|done].
  simpl in Hs. rewrite <-Hs.
  destruct (msg_changes msg) as [changes|].
  - pose proof (wd_applyChanges_untouched changes this1) as Hun.
    unfold bind. destruct (wd_applyChanges changes this1) as [[d|e] this2];
      simpl in *; unfold untouched, subscriptions in *; simpl in *;
      by injection Hun as _ -> ->.
  - pose proof (maybeSendChanges_untouched this1) as Hun.
    apply untouched_subscriptions in Hun.
    by destruct (maybeSendChanges this1) as [[[]|e] this2].
Qed.

Local Abbreviation kept := (handlersKept (Doc:=Doc) (Change:=Change)).

#[local] Instance handlersKept_preorder : PreOrder kept.
Proof.
  split.
  - by intros this Halloc.
  - intros s1 s2 s3 H12 H23 Halloc.
    destruct (H12 Halloc) as [Halloc2 Hsub12].
    destruct (H23 Halloc2) as [Halloc3 Hsub23].
    split; [done|]. by etrans.
Qed.

Lemma subscriptions_kept this this' : subs this' = subs this → kept this this'.
Proof.
  unfold subscriptions, handlersKept, allocated. intros [= Hhs Hnext] Halloc.
  rewrite Hhs, Hnext. by split.
Qed.

Lemma opened_kept this (c : Clock) : kept this (opened c this).
Proof.
  intros Halloc. split.
  - intros h. simpl. rewrite elem_of_union, elem_of_singleton.
    intros [Hin| ->]; [|lia]. specialize (Halloc _ Hin). lia.
  - simpl. apply union_subseteq_l.
Qed.

Lemma step_kept (o : Op Doc Change) : preserves kept (step o).
Proof.
  intros this. destruct o as [| |msg| |doc]; cbn [step].
  - rewrite open_cases. destruct (docClock _) as [c|]; [|done].
    destruct (lessOrEqual _ c); [apply opened_kept|done].
  - intros Halloc. rewrite (close_spec this Halloc). simpl. split; [|done].
    intros h Hin. specialize (Halloc _ Hin). simpl. lia.
  - apply subscriptions_kept. unfold bind.
    pose proof (receive_subscriptions msg this) as Hs.
    by destruct (receive msg this) as [[d|e] this1].
  - apply subscriptions_kept, untouched_subscriptions, docChanged_untouched.
  - apply subscriptions_kept, wd_set_subscriptions.
Qed.

(** X13: no sequence of operations takes a handler out of the wrapper: from
    a state whose handlers were all allocated earlier, every handler that is
    subscribed is still subscribed at the end, [close] included. *)
Theorem handlers_never_removed (ops : list (Op Doc Change)) this :
  allocated this →
  allocated (run ops this).2
  ∧ wd_handlers (watchableDoc this) ⊆ wd_handlers (watchableDoc (run ops this).2).
Proof.
  revert this. change (preserves kept (run ops)).
  apply preserves_forEach; [apply _|]. apply step_kept.
Qed.

(** *** The messages sent along a run *)

Local Abbreviation extends := (sentExtends (Doc:=Doc) (Change:=Change)).

#[local] Instance sentExtends_preorder : PreOrder extends.
Proof.
  split.
  - intros this. exists []. by rewrite app_nil_r.
  - intros s1 s2 s3 (m12 & H12 & F12) (m23 & H23 & F23).
    exists (m12 ++ m23). split.
    + by rewrite H23, H12, app_assoc.
    + by apply Forall_app.
Qed.

Lemma same_sent_extends this this' : sent this' = sent this → extends this this'.
Proof. intros Hs. exists []. by rewrite app_nil_r. Qed.

Lemma docChanged_extends : preserves extends docChanged.
Proof.
  intros this. rewrite docChanged_cases.
  destruct (docClock _) as [c|]; [|reflexivity].
  destruct (lessOrEqual _ c); [|reflexivity].
  exists (announced c this). split; [done|].
  unfold announced. destruct (missing this) as [|ch chs]; simpl.
  - destruct (lessOrEqual c _); repeat constructor.
  - repeat constructor.
Qed.

Lemma maybeSendChanges_extends : preserves extends maybeSendChanges.
Proof.
  intros this. rewrite maybeSendChanges_cases.
  destruct (missing this) as [|ch chs] eqn:Hm; simpl; [reflexivity|].
  destruct (docClock _) as [c|]; [|reflexivity].
  eexists. split; [done|]. repeat constructor.
Qed.

Lemma wd_set_extends (doc : Doc) : preserves extends (wd_set doc).
Proof.
  unfold wd_set. apply preserves_bind; [apply _| |intros _].
  { intros this. by apply same_sent_extends. }
  apply preserves_bind; [apply _| |intros hs].
  { intros this. by apply same_sent_extends. }
  apply preserves_forEach; [apply _|intros _]. apply docChanged_extends.
Qed.

Lemma receive_extends msg : preserves extends (receive msg).
Proof.
  unfold receive. apply preserves_bind; [apply _| |intros _].
  { intros this. apply same_sent_extends. by destruct (msg_clock msg). }
  apply preserves_bind; [apply _| |intros _].
  - destruct (msg_changes msg) as [changes|]; [|apply maybeSendChanges_extends].
    unfold wd_applyChanges.
    apply preserves_bind; [apply _| |intros _; apply preserves_ret; apply _].
    apply preserves_bind; [apply _|apply preserves_gets; apply _|intros d].
    apply preserves_bind; [apply _|apply wd_set_extends|intros _].
    apply preserves_ret; apply _.
  - apply preserves_gets; apply _.
Qed.

Lemma step_extends (o : Op Doc Change) : preserves extends (step o).
Proof.
  destruct o as [| |msg| |doc]; cbn [step].
  - intros this. rewrite open_cases. destruct (docClock _) as [c|]; [|reflexivity].
    destruct (lessOrEqual _ c); [|reflexivity].
    eexists. split; [done|]. repeat constructor.
  - intros this. by apply same_sent_extends.
  - apply preserves_bind; [apply _|apply receive_extends|intros _].
    apply preserves_ret; apply _.
  - apply docChanged_extends.
  - apply wd_set_extends.
Qed.

(** X14: messages are only ever added, and every message handed to [send]
    along a sequence of operations has a clock and, when it has a changes
    array, a non-empty one. *)
Theorem sent_messages_shaped (ops : list (Op Doc Change)) this :
  ∃ msgs,
    sent (run ops this).2 = sent this ++ msgs
    ∧ Forall (λ msg, shaped msg = true) msgs.
Proof.
  revert this. change (preserves extends (run ops)).
  apply preserves_forEach; [apply _|]. apply step_extends.
Qed.

End DocumentSyncMore.

(** ** More on StoreManager *)

Section StoreManagerMore.

Import StoreManager.

Context {Repo Store : Type}.

Implicit Types this : StoreManager Repo Store.
Implicit Types c : Connection.

(** While the store or the repository is missing, [addPeer] ignores the
    peer: nothing is recorded, no listener is called, no hook is put on the
    peer. *)
Lemma addPeer_without_store (peer : Peer) (discoveryKey : string) this :
  store this = None ∨ repo this = None →
  addPeer peer discoveryKey this = this.
Proof.
  unfold addPeer. intros [Hnone|Hnone]; rewrite Hnone; [done|].
  by destruct (store this).
Qed.





(** X20: closing a closed [StoreManager] changes nothing. *)
Theorem close_twice this : close (close this) = close this.
Proof.
  assert (Hfields : repo (close this) = None ∧ store (close this) = None
    ∧ connections (close this) = ∅ ∧ listeners (close this) = []).
  { unfold close, emit. simpl. repeat split.
    apply (removeAll_listeners _ (removeAllListeners this)). }
  destruct (close this) as [r st cs ls n cl hooks next].
  simpl in Hfields. destruct Hfields as (-> & -> & -> & ->).
  unfold close, emit, listenersOf. simpl.
  rewrite map_to_list_empty. simpl. by rewrite app_nil_r.
Qed.

(** *** The bookkeeping of connections along a run *)

Lemma consistent_frame this this' :
  connections this' = connections this →
  closed this' = closed this →
  next_serial this' = next_serial this →
  consistent this → consistent this'.
Proof. unfold consistent. by intros -> -> ->. Qed.

Lemma constructor_consistent : consistent (constructor (Repo:=Repo) (Store:=Store)).
Proof.
  unfold consistent. simpl. split; [|split].
  - intros k c Hk. by rewrite lookup_empty in Hk.
  - intros c Hc. by apply not_elem_of_nil in Hc.
  - constructor.
Qed.

Lemma addPeer_consistent (peer : Peer) (discoveryKey : string) this :
  consistent this → consistent (addPeer peer discoveryKey this).
Proof.
  intros (Hrec & Hclosed & Hnodup). unfold addPeer.
  destruct (store this); [|done]. destruct (repo this); [|done].
  unfold consistent. simpl. split; [|split; [|done]].
  - intros k c. rewrite lookup_insert. case_decide as Hk.
    + intros [= <-]. simpl. split; [done|]. split; [lia|].
      intros Hin. apply Hclosed in Hin. simpl in Hin. lia.
    + intros Hc. destruct (Hrec k c Hc) as (? & ? & ?).
      split; [done|]. split; [lia|done].
  - intros c Hin. apply Hclosed in Hin. lia.
Qed.

Lemma removePeer_consistent (peerId : string) this :
  consistent this → consistent (removePeer peerId this).
Proof.
  intros (Hrec & Hclosed & Hnodup). unfold consistent, removePeer. simpl.
  destruct (connections this !! peerId) as [c0|] eqn:Hc0.
  - destruct (Hrec _ _ Hc0) as (Hsock0 & Hser0 & Hnot0). split; [|split].
    + intros k c. rewrite lookup_delete. case_decide as Hk; [done|].
      intros Hc. destruct (Hrec k c Hc) as (Hsock & Hser & Hnot).
      split; [done|]. split; [done|].
      rewrite elem_of_app, list_elem_of_singleton. intros [?| ->]; [done|].
      congruence.
    + intros c. rewrite elem_of_app, list_elem_of_singleton.
      intros [Hin| ->]; [by apply Hclosed|done].
    + apply NoDup_app. split; [done|]. split; [|apply NoDup_singleton].
      intros c Hin. rewrite list_elem_of_singleton. by intros ->.
  - split; [|done]. intros k c. rewrite lookup_delete.
    case_decide; [done|]. apply Hrec.
Qed.

Lemma removeAll_consistent (peerIds : list string) this :
  consistent this →
  consistent (foldl (λ this peerId, removePeer peerId this) this peerIds).
Proof.
  revert this. induction peerIds as [|k ks IH]; intros this Hcons; [done|].
  simpl. by apply IH, removePeer_consistent.
Qed.

Lemma removeAll_next_serial (peerIds : list string) this :
  next_serial (foldl (λ this peerId, removePeer peerId this) this peerIds) =
  next_serial this.
Proof.
  revert this. induction peerIds as [|k ks IH]; intros this; [done|].
  simpl. by rewrite IH.
Qed.

Lemma close_consistent this : consistent this → consistent (close this).
Proof.
  intros Hcons. unfold close.
  set (peerIds := (map_to_list (connections (removeAllListeners this))).*1).
  assert (Hall : consistent
    (foldl (λ this peerId, removePeer peerId this) (removeAllListeners this) peerIds)).
  { apply removeAll_consistent. by apply (consistent_frame this). }
  destruct Hall as (_ & Hclosed & Hnodup).
  unfold consistent. simpl. split; [|by split].
  intros k c Hk. by rewrite lookup_empty in Hk.
Qed.

Lemma step_consistent (o : Op Repo Store) this :
  consistent this → consistent (step this o).
Proof.
  destruct o; cbn [step].
  - by apply consistent_frame.
  - by apply consistent_frame.
  - by apply consistent_frame.
  - apply addPeer_consistent.
  - apply removePeer_consistent.
  - by apply consistent_frame.
  - apply close_consistent.
Qed.

Lemma run_consistent (ops : list (Op Repo Store)) this :
  consistent this → consistent (run ops this).
Proof.
  revert this. induction ops as [|o ops IH]; intros this Hcons; [done|].
  apply IH. by apply step_consistent.
Qed.


Lemma removePeer_dropped (peerId : string) this c :
  dropped c this → dropped c (removePeer peerId this).
Proof.
  intros (Hser & Hnot & Hrec). unfold dropped, removePeer. simpl.
  split; [done|]. split.
  - destruct (connections this !! peerId) as [c0|] eqn:Hc0; [|done].
    rewrite elem_of_app, list_elem_of_singleton. intros [?| ->]; [done|].
    by apply (Hrec peerId).
  - intros k. rewrite lookup_delete. case_decide; [done|apply Hrec].
Qed.

Lemma removeAll_dropped (peerIds : list string) this c :
  dropped c this →
  dropped c (foldl (λ this peerId, removePeer peerId this) this peerIds).
Proof.
  revert this. induction peerIds as [|k ks IH]; intros this Hd; [done|].
  simpl. by apply IH, removePeer_dropped.
Qed.

Lemma step_dropped (o : Op Repo Store) this c :
  dropped c this → dropped c (step this o).
Proof.
  destruct o; cbn [step]; try done.
  - intros (Hser & Hnot & Hrec). unfold addPeer.
    destruct (store this); [|done]. destruct (repo this); [|done].
    unfold dropped. simpl. split; [lia|]. split; [done|].
    intros k. rewrite lookup_insert. case_decide; [|apply Hrec].
    intros [= <-]. simpl in Hser. lia.
  - apply removePeer_dropped.
  - intros Hd. unfold close.
    set (peerIds := (map_to_list (connections (removeAllListeners this))).*1).
    assert (Hall : dropped c
      (foldl (λ this peerId, removePeer peerId this) (removeAllListeners this) peerIds))
      by (by apply removeAll_dropped).
    destruct Hall as (Hser & Hnot & _). unfold dropped. simpl.
    split; [done|]. split; [done|]. intros k. by rewrite lookup_empty.
Qed.

Lemma run_dropped (ops : list (Op Repo Store)) this c :
  dropped c this → dropped c (run ops this).
Proof.
  revert this. induction ops as [|o ops IH]; intros this Hd; [done|].
  apply IH. by apply step_dropped.
Qed.

(** X22: a connection that [addPeer] replaces is lost for good: whatever
    happens afterwards, peers closing and [close] included, its [close] is
    never called. *)
Theorem replaced_connection_never_closed
    (before after : list (Op Repo Store)) (peer : Peer) (discoveryKey : string)
    (old : Connection) :
  let this := run before constructor in
  is_Some (store this) → is_Some (repo this) →
  connections this !! peer_id peer = Some old →
  old ∉ closed (run after (addPeer peer discoveryKey this)).
Proof.
  intros this [st Hst] [r Hr] Hold.
  destruct (run_consistent before constructor constructor_consistent)
    as (Hrec & _ & _). fold this in Hrec.
  destruct (Hrec _ _ Hold) as (Hsock & Hser & Hnot).
  apply (run_dropped after). unfold dropped, addPeer. rewrite Hst, Hr. simpl.
  split; [lia|]. split; [done|].
  intros k. rewrite lookup_insert. case_decide as Hk.
  - intros [= <-]. simpl in Hser. lia.
  - intros Hk'. destruct (Hrec _ _ Hk') as (Hsock' & _ & _). congruence.
Qed.

(** *** After [close] *)

Lemma run_without_store (ops : list (Op Repo Store)) this :
  forallb (λ o, negb (startsStore o)) ops = true →
  store this = None → connections this = ∅ →
  connections (run ops this) = ∅ ∧ closed (run ops this) = closed this.
Proof.
  revert this. induction ops as [|o ops IH]; intros this Hops Hst Hconn; [done|].
  simpl in Hops. apply andb_prop in Hops as [Ho Hops].
  assert (Hstep : store (step this o) = None ∧ connections (step this o) = ∅
                  ∧ closed (step this o) = closed this).
  { destruct o; cbn [step]; try done.
    - rewrite addPeer_without_store by (by left). done.
    - unfold removePeer. simpl. by rewrite Hconn, lookup_empty, delete_empty.
    - unfold close. simpl. by rewrite Hconn, map_to_list_empty. }
  destruct Hstep as (Hst' & Hconn' & Hcl').
  destruct (IH (step this o) Hops Hst' Hconn') as [H1 H2].
  split; [done|]. by rewrite <-Hcl'.
Qed.

(** X15: a closed [StoreManager] stays without connections until a store is
    made again: whatever peers the signal client reports and whichever peers
    close, nothing is recorded and no connection is closed. *)
Theorem closed_manager_stays_closed (ops : list (Op Repo Store)) this :
  forallb (λ o, negb (startsStore o)) ops = true →
  let after := run ops (close this) in
  connections after = ∅
  ∧ connectionCount after = 0
  ∧ closed after = closed (close this).
Proof.
  intros Hops after.
  destruct (run_without_store ops (close this) Hops) as [Hconn Hcl]; [done..|].
  subst after. unfold connectionCount. by rewrite Hconn.
Qed.

End StoreManagerMore.

(** ** More of the code on concrete states *)

Section MoreEvaluations.

Import DocumentSync Scenario.
Import (hints) LogDoc.

(** [open] on a freshly constructed [DocumentSync]. *)
Lemma open_on_current_document_witness :
  docClock (wd_doc (watchableDoc fresh)) = Some (LogDoc.clockOf [("alice", 1)])
  ∧ lessOrEqual (ourClock fresh) (LogDoc.clockOf [("alice", 1)]) = true
  ∧ open fresh = (Ok tt, opened (LogDoc.clockOf [("alice", 1)]) fresh).
Proof.
  assert (H1 : docClock (wd_doc (watchableDoc fresh)) =
               Some (LogDoc.clockOf [("alice", 1)])) by reflexivity.
  assert (H2 : lessOrEqual (ourClock fresh) (LogDoc.clockOf [("alice", 1)]) = true)
    by (vm_compute; reflexivity).
  split; [exact H1|]. split; [exact H2|].
  exact (open_on_current_document fresh _ H1 H2).
Defined.




(** [docChanged] twice while their clock is unknown. *)
Lemma docChanged_idle_witness :
  (docChanged unknownPeer).1 = Ok tt
  ∧ missing unknownPeer = []
  ∧ docChanged (docChanged unknownPeer).2 = (Ok tt, (docChanged unknownPeer).2).
Proof.
  assert (H1 : (docChanged unknownPeer).1 = Ok tt) by (vm_compute; reflexivity).
  assert (H2 : missing unknownPeer = []) by reflexivity.
  split; [exact H1|]. split; [exact H2|].
  exact (docChanged_idle unknownPeer H1 H2).
Defined.

(** The pull of a peer that holds nothing. *)
Lemma receive_pull_answers_witness :
  let d := LogDoc.clockOf [("alice", 1)] in
  let this1 :=
    set_clock (set_slot Theirs (Some (mergeWith largestWins (theirClock unknownPeer) ∅)))
      unknownPeer in
  docClock (wd_doc (watchableDoc unknownPeer)) = Some d
  ∧ receive {| msg_clock := Some ∅; msg_changes := None |} unknownPeer =
      (Ok (wd_doc (watchableDoc unknownPeer)),
       if 0 <? length (missing this1)
       then set_sent (λ out, out ++ [{| msg_clock := Some d;
                                        msg_changes := Some (missing this1) |}])
              (set_clock (set_slot Ours
                 (Some (mergeWith largestWins (ourClock unknownPeer) d))) this1)
       else this1).
Proof.
  intros d this1.
  assert (H1 : docClock (wd_doc (watchableDoc unknownPeer)) = Some d) by reflexivity.
  split; [exact H1|]. exact (receive_pull_answers unknownPeer ∅ d H1).
Defined.

(** A run without [receive]. *)
Lemma theirs_written_by_receive_only_witness :
  let ops := [OpOpen; OpSet LogDoc.two; OpClose; OpDocChanged] in
  forallb notReceive ops = true
  ∧ theirs (clock (run ops unknownPeer).2) = theirs (clock unknownPeer).
Proof.
  intros ops.
  assert (H1 : forallb notReceive ops = true) by reflexivity.
  split; [exact H1|]. exact (theirs_written_by_receive_only ops unknownPeer H1).
Defined.

(** A run with two [open] and two [close]. *)
Lemma handlers_never_removed_witness :
  let ops := [OpOpen; OpClose; OpOpen; OpReceive push; OpClose] in
  allocated fresh
  ∧ allocated (run ops fresh).2
  ∧ wd_handlers (watchableDoc fresh) ⊆ wd_handlers (watchableDoc (run ops fresh).2).
Proof.
  intros ops.
  assert (H1 : allocated fresh).
  { intros h Hh. simpl in Hh. by apply not_elem_of_empty in Hh. }
  split; [exact H1|]. exact (handlers_never_removed ops fresh H1).
Defined.

(** X13, on a concrete run: each [open] leaves one more handler, and each
    handler answers a change of the document. *)
Example two_opens_two_handlers :
  size (wd_handlers (watchableDoc (run [OpOpen; OpClose; OpOpen; OpClose] fresh).2)) = 2
  ∧ length (sent (run [OpOpen; OpClose; OpOpen; OpClose] fresh).2) = 2
  ∧ length (sent (run [OpOpen; OpClose; OpOpen; OpClose; OpSet LogDoc.two] fresh).2) = 4.
Proof. repeat split; vm_compute; reflexivity. Qed.

(** Peers reported and closing after [close]. *)
Lemma closed_manager_stays_closed_witness :
  let ops :=
    [StoreManager.OpAddPeer {| StoreManager.peer_id := "carol" |} "doc";
     StoreManager.OpPeerClosed "bob"; StoreManager.OpOn "peer" 3;
     StoreManager.OpAddPeer {| StoreManager.peer_id := "bob" |} "doc";
     StoreManager.OpClose] in
  let after := StoreManager.run ops (StoreManager.close manager) in
  forallb (λ o, negb (StoreManager.startsStore o)) ops = true
  ∧ StoreManager.connections after = ∅
  ∧ StoreManager.connectionCount after = 0
  ∧ StoreManager.closed after = StoreManager.closed (StoreManager.close manager).
Proof.
  intros ops after.
  assert (H1 : forallb (λ o, negb (StoreManager.startsStore o)) ops = true)
    by reflexivity.
  split; [exact H1|]. exact (closed_manager_stays_closed ops manager H1).
Defined.




Example connectionCount_examples :
  StoreManager.connectionCount
    (StoreManager.addPeer {| StoreManager.peer_id := "carol" |} "doc" manager) = 2
  ∧ StoreManager.connectionCount
      (StoreManager.addPeer {| StoreManager.peer_id := "bob" |} "doc" manager) = 1.
Proof. split; vm_compute; reflexivity. Qed.

(** Bob is adopted twice; then bob closes and the manager is closed. *)
Lemma replaced_connection_never_closed_witness :
  let bob := {| StoreManager.peer_id := "bob" |} in
  let before :=
    [StoreManager.OpCreateStore "doc" tt tt; StoreManager.OpAddPeer bob "doc"] in
  let after := [StoreManager.OpPeerClosed "bob"; StoreManager.OpClose] in
  let this := StoreManager.run before StoreManager.constructor in
  is_Some (StoreManager.store this)
  ∧ is_Some (StoreManager.repo this)
  ∧ StoreManager.connections this !! "bob" = Some toBob
  ∧ toBob ∉ StoreManager.closed
              (StoreManager.run after (StoreManager.addPeer bob "doc" this)).
Proof.
  intros bob before after this.
  assert (H1 : is_Some (StoreManager.store this)) by (exists tt; reflexivity).
  assert (H2 : is_Some (StoreManager.repo this)) by (exists tt; reflexivity).
  assert (H3 : StoreManager.connections this !! "bob" = Some toBob)
    by (vm_compute; reflexivity).
  split; [exact H1|]. split; [exact H2|]. split; [exact H3|].
  exact (replaced_connection_never_closed before after bob "doc" toBob H1 H2 H3).
Defined.

End MoreEvaluations.
